(** * Streaming AES-256-CBC codec of package [block_cipher]

    A shallow embedding of [crypto/block_cipher/basic_block_cipher.go]
    and the properties of its encoder and decoder.

    Go values are modelled as follows.
    - [int] is [Z]; every length met here is far below 2^63, so no
      wrap-around is involved.
    - [[]byte] is [list byte]; an index or slice expression outside the
      bounds of its operand is a run-time panic.
    - a function returning [error] yields a [Res]: [Ok], [Err] or
      [Panic].  The two [for] loops carry a fuel counter and yield
      [OutOfFuel] when it is used up; [EncryptStream_total] and
      [DecryptStream_total] show that this never happens.
    - [io.Reader], [io.Writer] and [rand.Reader] live in a [World] that
      is threaded through every call by the monad [M]; a failed call
      keeps the world it failed in.
    - the AES block transform and PBKDF2 come from Go's libraries and
      are the parameters [Crypto] of the development, with the laws
      [CryptoLaws]; CBC chaining is written out.

    The file has the model first, then the vocabulary of the
    statements, then the lemmas and the theorems, and last the theorems
    applied at a small instance of the primitives. *)

From Stdlib Require Import String Strings.Byte.
From Stdlib Require Import ZArith List Bool Lia.
Import ListNotations.
Local Open Scope Z_scope.

(** ** Bytes, integers and slices *)

Module Go.

Definition byte := Byte.byte.

(** [len(s)] *)
Definition len {A : Type} (s : list A) : Z := Z.of_nat (length s).

(** [byte(x)] for an [int] x: the low eight bits. *)
Definition byteOfInt (x : Z) : byte :=
  match Byte.of_N (Z.to_N (x mod 256)) with
  | Some b => b
  | None => Byte.x00
  end.

(** [int(b)] for a [byte] b. *)
Definition intOfByte (b : byte) : Z := Z.of_N (Byte.to_N b).

(** [s[i]]; [None] stands for the index-out-of-range panic. *)
Definition index {A : Type} (s : list A) (i : Z) : option A :=
  if 0 <=? i then nth_error s (Z.to_nat i) else None.

(** [s[lo:hi]]; [None] stands for the slice-bounds panic.  Capacity is
    taken to be the length: no slice expression of the package reaches
    past [len(s)]. *)
Definition slice {A : Type} (s : list A) (lo hi : Z) : option (list A) :=
  if (0 <=? lo) && (lo <=? hi) && (hi <=? len s)
  then Some (firstn (Z.to_nat (hi - lo)) (skipn (Z.to_nat lo) s))
  else None.

(** [bytes.Repeat(b, count)], for the non-negative counts it is called
    with. *)
Definition bytes_Repeat (b : list byte) (count : Z) : list byte :=
  concat (repeat b (Z.to_nat count)).

(** [subtle.XORBytes]: bytewise exclusive or, up to the shorter length. *)
Definition xor_bits (x y : bool * (bool * (bool * (bool * (bool * (bool * (bool * bool)))))))
  : bool * (bool * (bool * (bool * (bool * (bool * (bool * bool)))))) :=
  let '(x0, (x1, (x2, (x3, (x4, (x5, (x6, x7))))))) := x in
  let '(y0, (y1, (y2, (y3, (y4, (y5, (y6, y7))))))) := y in
  (xorb x0 y0, (xorb x1 y1, (xorb x2 y2, (xorb x3 y3,
  (xorb x4 y4, (xorb x5 y5, (xorb x6 y6, xorb x7 y7))))))).

Definition byte_xor (a b : byte) : byte :=
  Byte.of_bits (xor_bits (Byte.to_bits a) (Byte.to_bits b)).

Fixpoint XORBytes (x y : list byte) : list byte :=
  match x, y with
  | a :: x', b :: y' => byte_xor a b :: XORBytes x' y'
  | _, _ => []
  end.

(** [bytes.Equal] *)
Fixpoint bytes_eqb (x y : list byte) : bool :=
  match x, y with
  | [], [] => true
  | a :: x', b :: y' => Byte.eqb a b && bytes_eqb x' y'
  | _, _ => false
  end.

(** *** Errors, panics and results *)

Inductive ioError : Type :=
| EOF
| ErrUnexpectedEOF
| ErrClosedPipe
| ErrDevice (msg : string).

(** [errors.New], [fmt.Errorf("ctx: %w", err)] and the error values of
    the libraries the package calls. *)
Inductive error : Type :=
| IOErr (e : ioError)
| KeySizeError (n : Z)
| New (msg : string)
| Wrap (ctx : string) (e : error).

Inductive panic : Type :=
| IndexOutOfRange
| SliceOutOfRange
| InputNotFullBlocks
| IVLengthMismatch.

Inductive Res (A : Type) : Type :=
| Ok (a : A)
| Err (e : error)
| Panic (p : panic)
| OutOfFuel.

Arguments Ok {A} a.
Arguments Err {A} e.
Arguments Panic {A} p.
Arguments OutOfFuel {A}.

Definition ofOption {A : Type} (p : panic) (o : option A) : Res A :=
  match o with
  | Some a => Ok a
  | None => Panic p
  end.

(** *** Readers and writers *)

(** A reader holds the bytes it has not delivered yet and the error it
    reports once they are used up ([EOF] for a file or a
    [bytes.Reader]). *)
Record Reader : Type := mkReader { r_data : list byte; r_err : ioError }.

(** A writer holds what it has accepted so far; [w_left = Some k] lets
    k more [Write] calls through and fails the next with
    [ErrClosedPipe], [None] never fails. *)
Record Writer : Type := mkWriter { w_out : list byte; w_left : option nat }.

Definition isEOFish (e : option ioError) : bool :=
  match e with
  | Some EOF | Some ErrUnexpectedEOF => true
  | _ => false
  end.

(** [io.ReadFull(r, buf)] with [len(buf) = n], by its contract: the
    result is [(buf[:k], err)] where k bytes were read; [err] is nil
    exactly when k = n, [EOF] when the source ended before any byte,
    [ErrUnexpectedEOF] when it ended after some, and the reader's own
    error otherwise.  Of the buffer only the prefix [buf[:k]] is kept:
    the package never looks at a buffer past the count returned. *)
Definition shortError (got : list byte) (e : ioError) : ioError :=
  match got, e with
  | _ :: _, EOF => ErrUnexpectedEOF
  | _, _ => e
  end.

Definition ReadFull (r : Reader) (n : Z) : (list byte * option ioError) * Reader :=
  if n <=? len (r_data r) then
    ((firstn (Z.to_nat n) (r_data r), None),
     mkReader (skipn (Z.to_nat n) (r_data r)) (r_err r))
  else
    ((r_data r, Some (shortError (r_data r) (r_err r))), mkReader [] (r_err r)).

(** [w.Write(p)]: the error returned, and the writer afterwards. *)
Definition Write (w : Writer) (p : list byte) : option ioError * Writer :=
  match w_left w with
  | Some O => (Some ErrClosedPipe, w)
  | Some (S k) => (None, mkWriter (w_out w ++ p) (Some k))
  | None => (None, mkWriter (w_out w ++ p) None)
  end.

(** [bytes.NewReader(b)] and an empty [bytes.Buffer]. *)
Definition bytes_NewReader (b : list byte) : Reader := mkReader b EOF.
Definition bytes_Buffer : Writer := mkWriter [] None.

End Go.

Import Go.

(** ** The world of one call and its monad *)

(** [src] is the reader handed to the call, [dst] the writer, [rnd] the
    process-wide [rand.Reader]. *)
Record World : Type := mkWorld { src : Reader; dst : Writer; rnd : Reader }.

Definition M (A : Type) : Type := World -> Res A * World.

Definition ret {A : Type} (a : A) : M A := fun s => (Ok a, s).

Definition bind {A B : Type} (m : M A) (k : A -> M B) : M B :=
  fun s =>
    match m s with
    | (Ok a, s') => k a s'
    | (Err e, s') => (Err e, s')
    | (Panic p, s') => (Panic p, s')
    | (OutOfFuel, s') => (OutOfFuel, s')
    end.

Definition fail {A : Type} (e : error) : M A := fun s => (Err e, s).

Definition lift {A : Type} (r : Res A) : M A := fun s => (r, s).

Declare Scope go_scope.
Delimit Scope go_scope with go.
Notation "x <- c ;; k" := (bind c (fun x => k))
  (at level 61, c at next level, right associativity) : go_scope.
Notation "' pat <- c ;; k" := (bind c (fun x => match x with pat => k end))
  (at level 61, pat pattern, c at next level, right associativity) : go_scope.
Local Open Scope go_scope.

(** [io.ReadFull(r, buf)] on the call's reader. *)
Definition readFull (n : Z) : M (list byte * option ioError) :=
  fun s => let '(x, r') := ReadFull (src s) n in (Ok x, mkWorld r' (dst s) (rnd s)).

(** [io.ReadFull(rand.Reader, buf)]. *)
Definition randReadFull (n : Z) : M (list byte * option ioError) :=
  fun s => let '(x, r') := ReadFull (rnd s) n in (Ok x, mkWorld (src s) (dst s) r').

(** [_, err := w.Write(p)]. *)
Definition write (p : list byte) : M (option ioError) :=
  fun s => let '(e, w') := Write (dst s) p in (Ok e, mkWorld (src s) w' (rnd s)).

(** [if err != nil { return fmt.Errorf(format, err) }] *)
Definition check (format : string) (err : option ioError) : M unit :=
  match err with
  | Some e => fail (Wrap format (IOErr e))
  | None => ret tt
  end.

(** ** Package [block_cipher] *)

Definition bufferSize : Z := 1024 * 1024.
Definition headerSize : Z := 16.
Definition saltSize : Z := 8.
Definition magicHeader : string := "Salted__".
Definition pbkdf2Iterations : Z := 10000.
Definition aes256KeySize : Z := 32.
Definition ivOffset : Z := 32.
Definition ivEndOffset : Z := 48.

(** [aes.BlockSize] *)
Definition aes_BlockSize : Z := 16.

(** The hash constructors [pbkdf2.Key] is given. *)
Inductive hashNew : Type := sha1_New | sha256_New.

(** [aes.NewCipher]: a block keyed with 16, 24 or 32 bytes. *)
Record Block : Type := mkBlock { blk_key : list byte }.

Definition aes_NewCipher (key : list byte) : error + Block :=
  let k := len key in
  if (k =? 16) || (k =? 24) || (k =? 32) then inr (mkBlock key)
  else inl (KeySizeError k).

(** [cipher.BlockMode] as built by [cipher.NewCBCEncrypter] and
    [cipher.NewCBCDecrypter]: the block, the direction and the chaining
    value, which [CryptBlocks] advances. *)
Inductive direction : Type := Encrypter | Decrypter.

Record BlockMode : Type :=
  mkBlockMode { bm_block : Block; bm_dir : direction; bm_iv : list byte }.

Definition NewCBC (d : direction) (b : Block) (iv : list byte) : Res BlockMode :=
  if len iv =? aes_BlockSize then Ok (mkBlockMode b d iv)
  else Panic IVLengthMismatch.

Definition NewCBCEncrypter := NewCBC Encrypter.
Definition NewCBCDecrypter := NewCBC Decrypter.

Definition applyPKCS7Padding (data : list byte) : list byte :=
  let padding := aes_BlockSize - len data mod aes_BlockSize in
  let paddingBytes := bytes_Repeat [byteOfInt padding] padding in
  data ++ paddingBytes.

Definition removePKCS7Padding (data : list byte) (bytesRead : Z) : Res (list byte) :=
  if bytesRead =? 0 then Ok data
  else
    match index data (bytesRead - 1) with
    | None => Panic IndexOutOfRange
    | Some b =>
        let paddingLength := intOfByte b in
        if (paddingLength >? bytesRead) || (paddingLength >? aes_BlockSize)
        then Ok data
        else ofOption SliceOutOfRange (slice data 0 (bytesRead - paddingLength))
    end.

(** The primitives taken from Go's libraries: [pbkdf2.Key(password,
    salt, iter, keyLen, h)] and the AES transform of one 16-byte block
    under a key, [Block.Encrypt] and [Block.Decrypt]. *)
Class Crypto : Type := {
  pbkdf2_Key : list byte -> list byte -> Z -> Z -> hashNew -> list byte;
  Encrypt : list byte -> list byte -> list byte;
  Decrypt : list byte -> list byte -> list byte
}.

Section Package.

Context {C : Crypto}.

(** CBC chaining over [n] blocks of [src], from chaining value [iv]:
    the output and the chaining value left behind. *)
Fixpoint cbcEncryptBlocks (n : nat) (b : Block) (iv src : list byte)
  : list byte * list byte :=
  match n with
  | O => ([], iv)
  | S n' =>
      let c := Encrypt (blk_key b) (XORBytes (firstn 16 src) iv) in
      let '(rest, iv') := cbcEncryptBlocks n' b c (skipn 16 src) in
      (c ++ rest, iv')
  end.

Fixpoint cbcDecryptBlocks (n : nat) (b : Block) (iv src : list byte)
  : list byte * list byte :=
  match n with
  | O => ([], iv)
  | S n' =>
      let c := firstn 16 src in
      let p := XORBytes (Decrypt (blk_key b) c) iv in
      let '(rest, iv') := cbcDecryptBlocks n' b c (skipn 16 src) in
      (p ++ rest, iv')
  end.

(** The chaining of [CryptBlocks] over the whole blocks of [data]: the
    bytes produced and the mode afterwards. *)
Definition chain (mode : BlockMode) (data : list byte) : list byte * BlockMode :=
  let n := Z.to_nat (len data / aes_BlockSize) in
  let '(out, iv') :=
    match bm_dir mode with
    | Encrypter => cbcEncryptBlocks n (bm_block mode) (bm_iv mode) data
    | Decrypter => cbcDecryptBlocks n (bm_block mode) (bm_iv mode) data
    end in
  (out, mkBlockMode (bm_block mode) (bm_dir mode) iv').

(** [mode.CryptBlocks(dst, src)] with [len(dst) = len(src)]: the bytes
    written to [dst] and the mode afterwards; it panics when [src] is
    not a whole number of blocks. *)
Definition CryptBlocks (mode : BlockMode) (data : list byte)
  : Res (list byte * BlockMode) :=
  if len data mod aes_BlockSize =? 0 then Ok (chain mode data)
  else Panic InputNotFullBlocks.

Definition readAndValidateHeader : M (list byte) :=
  '(header, err) <- readFull headerSize ;;
  _ <- check "failed to read header: %w" err ;;
  magic <- lift (ofOption SliceOutOfRange (slice header 0 saltSize)) ;;
  if negb (String.eqb (string_of_list_byte magic) magicHeader)
  then fail (New "invalid file format")
  else lift (ofOption SliceOutOfRange (slice header saltSize headerSize)).

Definition deriveKeyAndIV (password salt : list byte) : Res (list byte * list byte) :=
  let keyIv := pbkdf2_Key password salt pbkdf2Iterations
                 (aes256KeySize + aes_BlockSize) sha256_New in
  match slice keyIv 0 aes256KeySize,
        slice keyIv ivOffset (ivOffset + aes_BlockSize) with
  | Some key, Some iv => Ok (key, iv)
  | _, _ => Panic SliceOutOfRange
  end.

(** The mode is a pointer in Go; here the advanced mode is returned
    next to the pending data. *)
Definition processDecryptionBlock (mode : BlockMode) (encryptedBuffer : list byte)
    (bytesRead : Z) (isLastBlock : bool) (previousDecryptedData : list byte)
  : M (list byte * BlockMode) :=
  chunk <- lift (ofOption SliceOutOfRange (slice encryptedBuffer 0 bytesRead)) ;;
  '(currentDecrypted, mode') <- lift (CryptBlocks mode chunk) ;;
  _ <- (if len previousDecryptedData >? 0
        then err <- write previousDecryptedData ;;
             check "failed to write decrypted block: %w" err
        else ret tt) ;;
  if isLastBlock then
    finalData <- lift (removePKCS7Padding currentDecrypted bytesRead) ;;
    err <- write finalData ;;
    _ <- check "failed to write final block: %w" err ;;
    ret ([], mode')
  else
    ret (currentDecrypted, mode').

Definition handleEndOfFile (previousDecryptedData : list byte) : M unit :=
  if len previousDecryptedData >? 0 then
    finalData <- lift (removePKCS7Padding previousDecryptedData
                         (len previousDecryptedData)) ;;
    err <- write finalData ;;
    check "failed to write final block: %w" err
  else ret tt.

(** The [for] loop of [DecryptStream]. *)
Fixpoint DecryptStream_loop (fuel : nat) (mode : BlockMode)
    (previousDecryptedData : list byte) : M unit :=
  match fuel with
  | O => lift OutOfFuel
  | S fuel' =>
      '(encryptedBuffer, readErr) <- readFull bufferSize ;;
      let bytesRead := len encryptedBuffer in
      let isEOF := isEOFish readErr in
      let isLastBlock := (bytesRead <? bufferSize) || isEOF in
      if bytesRead =? 0 then handleEndOfFile previousDecryptedData
      else
        '(nextPreviousData, mode') <-
          processDecryptionBlock mode encryptedBuffer bytesRead isLastBlock
            previousDecryptedData ;;
        if isLastBlock then ret tt
        else
          _ <- (if negb isEOF then check "failed to read encrypted data: %w" readErr
                else ret tt) ;;
          DecryptStream_loop fuel' mode' nextPreviousData
  end.

(** Every turn of either loop that goes round again has taken
    [bufferSize] bytes off the reader, so one more turn than there are
    bytes left is enough. *)
Definition loopFuel (s : World) : nat := S (length (r_data (src s))).

Definition DecryptStream (password : list byte) : M unit :=
  salt <- readAndValidateHeader ;;
  '(key, iv) <- lift (deriveKeyAndIV password salt) ;;
  match aes_NewCipher key with
  | inl e => fail (Wrap "failed to create cipher: %w" e)
  | inr block =>
      mode <- lift (NewCBCDecrypter block iv) ;;
      fun s => DecryptStream_loop (loopFuel s) mode [] s
  end.

Definition writeEncryptedHeader : M (list byte) :=
  '(salt, err) <- randReadFull saltSize ;;
  _ <- check "error generating salt: %w" err ;;
  err <- write (list_byte_of_string magicHeader) ;;
  _ <- check "error writing header to file: %w" err ;;
  err <- write salt ;;
  _ <- check "error writing salt to file: %w" err ;;
  ret salt.

Definition setupEncryption (password salt : list byte) : M BlockMode :=
  '(key, iv) <- lift (deriveKeyAndIV password salt) ;;
  match aes_NewCipher key with
  | inl e => fail (Wrap "error creating AES cipher: %w" e)
  | inr block => lift (NewCBCEncrypter block iv)
  end.

Definition writeEncryptedBlock (cbc : BlockMode) (data : list byte) : M BlockMode :=
  '(encBlock, cbc') <- lift (CryptBlocks cbc data) ;;
  err <- write encBlock ;;
  _ <- check "error writing encrypted block to file: %w" err ;;
  ret cbc'.

Definition processFinalBlock (cbc : BlockMode) (data : list byte) (bytesRead : Z)
    (hasWrittenData : bool) : M unit :=
  if bytesRead =? 0 then
    if negb hasWrittenData then
      empty <- lift (ofOption SliceOutOfRange (slice data 0 0)) ;;
      let paddedBlock := applyPKCS7Padding empty in
      _ <- writeEncryptedBlock cbc paddedBlock ;; ret tt
    else
      let padding := bytes_Repeat [byteOfInt aes_BlockSize] aes_BlockSize in
      _ <- writeEncryptedBlock cbc padding ;; ret tt
  else
    chunk <- lift (ofOption SliceOutOfRange (slice data 0 bytesRead)) ;;
    let paddedBlock := applyPKCS7Padding chunk in
    _ <- writeEncryptedBlock cbc paddedBlock ;; ret tt.

(** The [for] loop of [EncryptStream]. *)
Fixpoint EncryptStream_loop (fuel : nat) (cbc : BlockMode) (hasWrittenData : bool)
  : M unit :=
  match fuel with
  | O => lift OutOfFuel
  | S fuel' =>
      '(readBuffer, readErr) <- readFull bufferSize ;;
      let bytesRead := len readBuffer in
      let isEOF := isEOFish readErr in
      let isLastBlock := (bytesRead <? bufferSize) || isEOF in
      if isLastBlock then
        processFinalBlock cbc readBuffer bytesRead hasWrittenData
      else
        chunk <- lift (ofOption SliceOutOfRange (slice readBuffer 0 bytesRead)) ;;
        cbc' <- writeEncryptedBlock cbc chunk ;;
        _ <- (if negb isEOF then check "failed to read input data: %w" readErr
              else ret tt) ;;
        EncryptStream_loop fuel' cbc' true
  end.

Definition EncryptStream (password : list byte) : M unit :=
  salt <- writeEncryptedHeader ;;
  cbc <- setupEncryption password salt ;;
  fun s => EncryptStream_loop (loopFuel s) cbc false s.

End Package.

(** ** A small instance of the primitives

    Not AES and not PBKDF2: a block is masked with the first key byte
    and reversed, and the derived bytes are the password and the salt
    filled up with zeros.  It is enough to run the codec on concrete
    inputs. *)
Module Toy.

Definition mask (key : list byte) (blk : list byte) : list byte :=
  map (fun b => byte_xor b (hd Byte.x2a key)) blk.

Definition encrypt (key blk : list byte) : list byte := rev (mask key blk).

Definition decrypt (key blk : list byte) : list byte := mask key (rev blk).

Definition kdf (password salt : list byte) (iter keyLen : Z) (h : hashNew)
  : list byte :=
  firstn (Z.to_nat keyLen) (password ++ salt ++ repeat Byte.x00 (Z.to_nat keyLen)).

Definition crypto : Crypto :=
  {| pbkdf2_Key := kdf; Encrypt := encrypt; Decrypt := decrypt |}.

Definition salt0 : list byte :=
  [Byte.x01; Byte.x02; Byte.x03; Byte.x04; Byte.x05; Byte.x06; Byte.x07; Byte.x08].

Definition password0 : list byte := list_byte_of_string "s3cr3t".

End Toy.

(** ** Vocabulary of the statements *)

(** A mode whose key is an AES-256 key and whose chaining value is one
    block. *)
Definition modeOK (mode : BlockMode) : Prop :=
  len (blk_key (bm_block mode)) = aes256KeySize /\ len (bm_iv mode) = aes_BlockSize.

(** The chunk [removePKCS7Padding] hands back for a chunk passed with
    its own length, as both call sites do. *)
Definition stripped (chunk : list byte) : list byte :=
  match removePKCS7Padding chunk (len chunk) with
  | Ok r => r
  | _ => chunk
  end.

(** [EncryptStream] from a [bytes.Reader] over [plain] into an empty
    [bytes.Buffer]: the result and the bytes written. *)
Definition encryptBytes {C : Crypto} (password plain : list byte) (rand : Reader)
  : Res unit * list byte :=
  let '(r, s) := EncryptStream password
                   (mkWorld (bytes_NewReader plain) bytes_Buffer rand) in
  (r, w_out (dst s)).

(** [DecryptStream] likewise; it never touches [rand.Reader]. *)
Definition decryptBytes {C : Crypto} (password container : list byte)
  : Res unit * list byte :=
  let '(r, s) := DecryptStream password
                   (mkWorld (bytes_NewReader container) bytes_Buffer
                      (bytes_NewReader [])) in
  (r, w_out (dst s)).

(** The two errors the loops build from a failed read. *)
Definition loopReadError (e : error) : Prop :=
  exists io : ioError,
    e = Wrap "failed to read input data: %w" (IOErr io) \/
    e = Wrap "failed to read encrypted data: %w" (IOErr io).

(** A result that is not one of them. *)
Definition noReadError {A : Type} (r : Res A) : Prop :=
  match r with
  | Err e => ~ loopReadError e
  | _ => True
  end.

(** A plaintext of [n] bytes, and the codec run forth and back on it
    at the small instance: both results, the length of the body and
    the bytes that come out. *)
Definition sample (n : nat) : list byte := repeat Byte.x41 n.

Definition runBoth (P : list byte) : Res unit * Z * Res unit * list byte :=
  let '(r, container) :=
    encryptBytes (C := Toy.crypto) Toy.password0 P (bytes_NewReader Toy.salt0) in
  let '(r', plain) := decryptBytes (C := Toy.crypto) Toy.password0 container in
  (r, len container - headerSize, r', plain).


(** The [Write] calls [EncryptStream] makes on a plaintext: tag, salt,
    one per full buffer, and the padded last chunk. *)
Definition encoderWrites (P : list byte) : Z := 3 + len P / bufferSize.

(** The [Write] calls [DecryptStream] makes on a body of whole blocks:
    one per buffer, full or not. *)
Definition decoderWrites (body : list byte) : Z :=
  (len body + bufferSize - 1) / bufferSize.

(** The write errors of the two calls. *)
Definition errWriteHeader : error :=
  Wrap "error writing header to file: %w" (IOErr ErrClosedPipe).
Definition errWriteSalt : error :=
  Wrap "error writing salt to file: %w" (IOErr ErrClosedPipe).
Definition errWriteEncryptedBlock : error :=
  Wrap "error writing encrypted block to file: %w" (IOErr ErrClosedPipe).
Definition errWriteDecryptedBlock : error :=
  Wrap "failed to write decrypted block: %w" (IOErr ErrClosedPipe).
Definition errWriteFinalBlock : error :=
  Wrap "failed to write final block: %w" (IOErr ErrClosedPipe).

(** What a caller sees of a call: its result and the bytes the writer
    holds afterwards. *)
Definition outcome {A : Type} (x : Res A * World) : Res A * list byte :=
  (fst x, w_out (dst (snd x))).

(** A result that is nil, an error in [E] or a panic in [P], and not a
    loop cut short. *)
Definition outcomeIn {A : Type} (E : error -> Prop) (P : panic -> Prop)
    (r : Res A) : Prop :=
  match r with
  | Ok _ => True
  | Err e => E e
  | Panic p => P p
  | OutOfFuel => False
  end.

(** The errors [EncryptStream] builds outside its read-error exit. *)
Definition encoderError (e : error) : Prop :=
  (exists io : ioError, e = Wrap "error generating salt: %w" (IOErr io)) \/
  e = errWriteHeader \/ e = errWriteSalt \/ e = errWriteEncryptedBlock.

(** The errors [DecryptStream] builds outside its read-error exit. *)
Definition decoderError (e : error) : Prop :=
  (exists io : ioError, e = Wrap "failed to read header: %w" (IOErr io)) \/
  e = New "invalid file format" \/
  e = errWriteDecryptedBlock \/ e = errWriteFinalBlock.


(** [[]byte(magicHeader)] *)
Definition magicBytes : list byte := list_byte_of_string magicHeader.

(** The mode a session on [password] and [salt] starts from. *)
Definition sessionMode {C : Crypto} (d : direction) (password salt : list byte)
  : BlockMode :=
  match deriveKeyAndIV password salt with
  | Ok (key, iv) => mkBlockMode (mkBlock key) d iv
  | _ => mkBlockMode (mkBlock []) d []
  end.

(** The two errors of [readAndValidateHeader], which the specification
    files under FormatError. *)
Definition FormatError (e : error) : Prop :=
  (exists io : ioError, e = Wrap "failed to read header: %w" (IOErr io)) \/
  e = New "invalid file format".

(** What the development asks of the primitives: [pbkdf2.Key] returns
    [keyLen] bytes, and under an AES-256 key [Encrypt] and [Decrypt]
    map a 16-byte block to a 16-byte block, the second undoing the
    first. *)
Class CryptoLaws (C : Crypto) : Prop := {
  pbkdf2_Key_len : forall password salt iter keyLen h,
    0 <= keyLen -> len (pbkdf2_Key password salt iter keyLen h) = keyLen;
  Encrypt_len : forall key blk,
    len key = aes256KeySize -> len blk = aes_BlockSize ->
    len (Encrypt key blk) = aes_BlockSize;
  Decrypt_len : forall key blk,
    len key = aes256KeySize -> len blk = aes_BlockSize ->
    len (Decrypt key blk) = aes_BlockSize;
  Decrypt_Encrypt : forall key blk,
    len key = aes256KeySize -> len blk = aes_BlockSize ->
    Decrypt key (Encrypt key blk) = blk
}.

(** * Properties *)

(** ** Bytes and slices *)

Lemma len_nil {A : Type} : len (@nil A) = 0.
Proof. reflexivity. Qed.

Lemma len_app {A : Type} (x y : list A) : len (x ++ y) = len x + len y.
Proof. unfold len. rewrite length_app. lia. Qed.

Lemma len_cons {A : Type} (a : A) (x : list A) : len (a :: x) = 1 + len x.
Proof. unfold len. simpl length. lia. Qed.

Lemma len_nonneg {A : Type} (x : list A) : 0 <= len x.
Proof. unfold len. lia. Qed.

Lemma len_firstn {A : Type} (n : Z) (x : list A) :
  0 <= n <= len x -> len (firstn (Z.to_nat n) x) = n.
Proof. unfold len. intros H. rewrite length_firstn. lia. Qed.

Lemma len_skipn {A : Type} (n : Z) (x : list A) :
  0 <= n <= len x -> len (skipn (Z.to_nat n) x) = len x - n.
Proof. unfold len. intros H. rewrite length_skipn. lia. Qed.

Lemma len_zero_nil {A : Type} (x : list A) : len x = 0 -> x = [].
Proof. destruct x; [reflexivity | rewrite len_cons; pose proof (len_nonneg x); lia]. Qed.

Lemma bytes_Repeat_one (b : byte) (n : Z) :
  bytes_Repeat [b] n = repeat b (Z.to_nat n).
Proof.
  unfold bytes_Repeat.
  induction (Z.to_nat n) as [|k IH]; simpl; [reflexivity | now rewrite IH].
Qed.

Lemma len_repeat (b : byte) (n : Z) :
  0 <= n -> len (bytes_Repeat [b] n) = n.
Proof.
  intros H. rewrite bytes_Repeat_one. unfold len. rewrite repeat_length. lia.
Qed.

Lemma intOfByte_range (b : byte) : 0 <= intOfByte b <= 255.
Proof.
  unfold intOfByte. pose proof (Byte.to_N_bounded b). lia.
Qed.

Lemma intOfByte_byteOfInt (x : Z) : 0 <= x < 256 -> intOfByte (byteOfInt x) = x.
Proof.
  intros H. unfold intOfByte, byteOfInt.
  rewrite Z.mod_small by lia.
  destruct (Byte.of_N (Z.to_N x)) as [b|] eqn:E.
  - apply Byte.to_of_N in E. rewrite E. lia.
  - apply Byte.of_N_None_iff in E. lia.
Qed.

Lemma byte_xor_cancel (a b : byte) : byte_xor (byte_xor a b) b = a.
Proof.
  unfold byte_xor. rewrite Byte.to_bits_of_bits.
  rewrite <- (Byte.of_bits_to_bits a) at 2.
  f_equal.
  destruct (Byte.to_bits a) as (a0 & a1 & a2 & a3 & a4 & a5 & a6 & a7).
  destruct (Byte.to_bits b) as (b0 & b1 & b2 & b3 & b4 & b5 & b6 & b7).
  unfold xor_bits.
  repeat rewrite xorb_assoc, xorb_nilpotent, xorb_false_r.
  reflexivity.
Qed.

Lemma XORBytes_length (x y : list byte) :
  length x = length y -> length (XORBytes x y) = length x.
Proof.
  revert y. induction x as [|a x IH]; intros [|b y] H; simpl in *; try lia.
  rewrite IH; lia.
Qed.

Lemma XORBytes_cancel (x y : list byte) :
  length x = length y -> XORBytes (XORBytes x y) y = x.
Proof.
  revert y. induction x as [|a x IH]; intros [|b y] H; simpl in *; try lia.
  - reflexivity.
  - rewrite byte_xor_cancel, IH; [reflexivity | lia].
Qed.

Lemma len_snoc {A : Type} (pre : list A) (b : A) : len (pre ++ [b]) = len pre + 1.
Proof. unfold len. rewrite length_app. simpl length. lia. Qed.

Lemma index_last {A : Type} (pre : list A) (b : A) :
  index (pre ++ [b]) (len (pre ++ [b]) - 1) = Some b.
Proof.
  unfold index. rewrite len_snoc.
  pose proof (len_nonneg pre).
  replace (0 <=? len pre + 1 - 1) with true by (symmetry; apply Z.leb_le; lia).
  rewrite nth_error_app2 by (unfold len; lia).
  replace (Z.to_nat (len pre + 1 - 1) - length pre)%nat with O
    by (unfold len; lia).
  reflexivity.
Qed.

Lemma slice_prefix {A : Type} (s : list A) (n : Z) :
  0 <= n <= len s -> slice s 0 n = Some (firstn (Z.to_nat n) s).
Proof.
  intros H. unfold slice.
  replace ((0 <=? 0) && (0 <=? n) && (n <=? len s)) with true.
  - rewrite Z.sub_0_r. reflexivity.
  - symmetry. rewrite !andb_true_iff, !Z.leb_le. lia.
Qed.

Lemma slice_range {A : Type} (s : list A) (lo hi : Z) :
  0 <= lo <= hi /\ hi <= len s ->
  slice s lo hi = Some (firstn (Z.to_nat (hi - lo)) (skipn (Z.to_nat lo) s)).
Proof.
  intros H. unfold slice.
  replace ((0 <=? lo) && (lo <=? hi) && (hi <=? len s)) with true;
    [reflexivity |].
  symmetry. rewrite !andb_true_iff, !Z.leb_le. lia.
Qed.

Lemma slice_all {A : Type} (s : list A) : slice s 0 (len s) = Some s.
Proof.
  rewrite slice_prefix by (pose proof (len_nonneg s); lia).
  unfold len. rewrite Nat2Z.id, firstn_all. reflexivity.
Qed.

(** ** PKCS7 padding *)

(** The pad count lies in 1..16 and brings the length to a block
    boundary. *)
Lemma pad_count_range (n : Z) :
  1 <= aes_BlockSize - n mod aes_BlockSize <= 16.
Proof.
  unfold aes_BlockSize. pose proof (Z.mod_pos_bound n 16). lia.
Qed.

Lemma applyPKCS7Padding_len (data : list byte) :
  len (applyPKCS7Padding data) =
  len data + (aes_BlockSize - len data mod aes_BlockSize).
Proof.
  unfold applyPKCS7Padding. rewrite len_app, len_repeat; [reflexivity |].
  pose proof (pad_count_range (len data)). lia.
Qed.

Lemma applyPKCS7Padding_aligned (data : list byte) :
  len (applyPKCS7Padding data) mod aes_BlockSize = 0.
Proof.
  rewrite applyPKCS7Padding_len. unfold aes_BlockSize.
  pose proof (Z.div_mod (len data) 16).
  replace (len data + (16 - len data mod 16))
    with ((len data / 16 + 1) * 16) by lia.
  apply Z.mod_mul. lia.
Qed.

(** Padding looks only at the length modulo 16, so whole blocks in
    front pass through. *)
Lemma applyPKCS7Padding_app (x y : list byte) :
  len x mod aes_BlockSize = 0 ->
  applyPKCS7Padding (x ++ y) = x ++ applyPKCS7Padding y.
Proof.
  intros H. unfold applyPKCS7Padding.
  rewrite len_app, <- app_assoc.
  replace ((len x + len y) mod aes_BlockSize) with (len y mod aes_BlockSize).
  - reflexivity.
  - unfold aes_BlockSize in *. rewrite Z.add_mod, H by lia.
    rewrite Z.add_0_l, Z.mod_mod by lia. reflexivity.
Qed.

(** What [removePKCS7Padding] does to a non-empty chunk passed with its
    own length, in terms of its last byte. *)
Lemma removePKCS7Padding_last (pre : list byte) (b : byte) :
  removePKCS7Padding (pre ++ [b]) (len (pre ++ [b])) =
  Ok (if (1 <=? intOfByte b) && (intOfByte b <=? 16)
         && (intOfByte b <=? len (pre ++ [b]))
      then firstn (Z.to_nat (len (pre ++ [b]) - intOfByte b)) (pre ++ [b])
      else pre ++ [b]).
Proof.
  unfold removePKCS7Padding. rewrite index_last.
  set (chunk := pre ++ [b]). set (p := intOfByte b).
  assert (Hn : 1 <= len chunk).
  { unfold chunk. rewrite len_snoc. pose proof (len_nonneg pre). lia. }
  pose proof (intOfByte_range b) as Hp. fold p in Hp.
  replace (len chunk =? 0) with false by (symmetry; apply Z.eqb_neq; lia).
  unfold aes_BlockSize.
  destruct (Z.gtb_spec p (len chunk)) as [H1|H1];
    destruct (Z.gtb_spec p 16) as [H2|H2]; simpl orb;
    destruct (Z.leb_spec 1 p); destruct (Z.leb_spec p 16);
    destruct (Z.leb_spec p (len chunk)); simpl andb; try lia;
    try reflexivity.
  - rewrite slice_prefix by lia. reflexivity.
  - rewrite slice_prefix by lia. simpl ofOption. f_equal.
    replace (len chunk - p) with (len chunk) by lia.
    unfold len. rewrite Nat2Z.id, firstn_all. reflexivity.
Qed.

(** C3.  Stripping the padding of a chunk passed with its own length:
    an empty chunk comes back as it is; otherwise, with p the value of
    the last byte, the last p bytes are dropped exactly when
    1 <= p <= 16 and p <= the chunk length, and for every other p (0,
    above 16, above the length) the chunk comes back unmodified.  The
    result is always [Ok]: no error, no panic. *)
Theorem removePKCS7Padding_strip_rule :
  removePKCS7Padding [] (len (@nil byte)) = Ok [] /\
  forall (pre : list byte) (b : byte),
    let chunk := pre ++ [b] in
    let p := intOfByte b in
    removePKCS7Padding chunk (len chunk) =
    Ok (if (1 <=? p) && (p <=? 16) && (p <=? len chunk)
        then firstn (Z.to_nat (len chunk - p)) chunk
        else chunk).
Proof.
  split; [reflexivity |].
  intros pre b. cbv zeta. apply removePKCS7Padding_last.
Qed.

Lemma snoc_cases {A : Type} (l : list A) :
  l = [] \/ exists pre b, l = pre ++ [b].
Proof.
  induction l as [|b pre _] using rev_ind; [now left | right; eauto].
Qed.

Lemma removePKCS7Padding_ok (chunk : list byte) :
  removePKCS7Padding chunk (len chunk) = Ok (stripped chunk).
Proof.
  unfold stripped.
  destruct (snoc_cases chunk) as [-> | (pre & b & ->)]; [reflexivity |].
  rewrite removePKCS7Padding_last. reflexivity.
Qed.

Lemma stripped_nil : stripped [] = [].
Proof. reflexivity. Qed.

Lemma aligned_positive (n : Z) :
  n mod aes_BlockSize = 0 -> 0 < n -> 16 <= n.
Proof.
  unfold aes_BlockSize. intros H Hn.
  pose proof (Z.div_mod n 16). lia.
Qed.

(** Stripping touches the last block only: whatever stands in front of
    a non-empty run of whole blocks is left alone. *)
Lemma stripped_app (x y : list byte) :
  len y mod aes_BlockSize = 0 -> 0 < len y ->
  stripped (x ++ y) = x ++ stripped y.
Proof.
  intros Ha Hy. pose proof (aligned_positive _ Ha Hy) as H16.
  destruct (snoc_cases y) as [-> | (pre & b & ->)]; [discriminate Hy |].
  unfold stripped at 2. rewrite removePKCS7Padding_last.
  unfold stripped. rewrite app_assoc, removePKCS7Padding_last.
  rewrite <- app_assoc.
  pose proof (intOfByte_range b) as Hp. set (p := intOfByte b) in *.
  pose proof (len_nonneg x) as Hx.
  rewrite (len_app x (pre ++ [b])).
  destruct (Z.leb_spec 1 p); destruct (Z.leb_spec p 16);
    destruct (Z.leb_spec p (len (pre ++ [b])));
    destruct (Z.leb_spec p (len x + len (pre ++ [b])));
    simpl andb; try lia; try reflexivity.
  rewrite firstn_app.
  rewrite firstn_all2 by (unfold len in *; lia).
  f_equal. f_equal. unfold len in *. lia.
Qed.

Lemma applyPKCS7Padding_snoc (data : list byte) :
  let p := aes_BlockSize - len data mod aes_BlockSize in
  applyPKCS7Padding data =
  (data ++ repeat (byteOfInt p) (Z.to_nat (p - 1))) ++ [byteOfInt p].
Proof.
  intros p. unfold applyPKCS7Padding. fold p.
  pose proof (pad_count_range (len data)) as Hp. fold p in Hp.
  rewrite bytes_Repeat_one, <- app_assoc. f_equal.
  replace (Z.to_nat p) with (S (Z.to_nat (p - 1))) by lia.
  simpl repeat. apply repeat_cons.
Qed.

Lemma stripped_pad (data : list byte) : stripped (applyPKCS7Padding data) = data.
Proof.
  unfold stripped.
  pose proof (applyPKCS7Padding_len data) as Hlen.
  pose proof (pad_count_range (len data)) as Hp.
  pose proof (len_nonneg data) as Hd.
  rewrite applyPKCS7Padding_snoc in *. cbv zeta in *.
  set (p := aes_BlockSize - len data mod aes_BlockSize) in *.
  rewrite removePKCS7Padding_last.
  rewrite intOfByte_byteOfInt by lia.
  rewrite Hlen.
  replace ((1 <=? p) && (p <=? 16) && (p <=? len data + p)) with true
    by (symmetry; rewrite !andb_true_iff, !Z.leb_le; lia).
  rewrite <- app_assoc, firstn_app.
  replace (Z.to_nat (len data + p - p)) with (length data) by (unfold len; lia).
  rewrite firstn_all, Nat.sub_diag. simpl. apply app_nil_r.
Qed.

(** C9.  Padding then stripping is the identity: the pad count lies in
    1..16 and does not exceed the padded length, and
    [removePKCS7Padding], given the padded data and its length, hands
    back the data that was padded. *)
Theorem removePKCS7Padding_applyPKCS7Padding (D : list byte) :
  let padded := applyPKCS7Padding D in
  let p := len padded - len D in
  1 <= p <= 16 /\ p <= len padded /\
  index padded (len padded - 1) = Some (byteOfInt p) /\
  intOfByte (byteOfInt p) = p /\
  removePKCS7Padding padded (len padded) = Ok D.
Proof.
  cbv zeta.
  pose proof (pad_count_range (len D)) as Hp.
  pose proof (len_nonneg D) as Hd.
  rewrite applyPKCS7Padding_len.
  replace (len D + (aes_BlockSize - len D mod aes_BlockSize) - len D)
    with (aes_BlockSize - len D mod aes_BlockSize) by lia.
  repeat split; try lia.
  - pose proof (applyPKCS7Padding_len D) as Hlen.
    rewrite <- Hlen. rewrite applyPKCS7Padding_snoc. cbv zeta.
    apply index_last.
  - apply intOfByte_byteOfInt. lia.
  - rewrite <- applyPKCS7Padding_len, removePKCS7Padding_ok, stripped_pad.
    reflexivity.
Qed.

(** ** CBC chaining *)

Section Chaining.

Context {C : Crypto} {L : CryptoLaws C}.

Lemma firstn_block {A : Type} (x y : list A) :
  (16 <= length x)%nat -> firstn 16 (x ++ y) = firstn 16 x.
Proof.
  intros H. rewrite firstn_app.
  replace (16 - length x)%nat with O by lia.
  simpl. apply app_nil_r.
Qed.

Lemma skipn_block {A : Type} (x y : list A) :
  (16 <= length x)%nat -> skipn 16 (x ++ y) = skipn 16 x ++ y.
Proof.
  intros H. rewrite skipn_app.
  replace (16 - length x)%nat with O by lia.
  reflexivity.
Qed.

Lemma cbcEncryptBlocks_app (n m : nat) (b : Block) : forall (iv x y : list byte),
  length x = (16 * n)%nat ->
  cbcEncryptBlocks (n + m) b iv (x ++ y) =
  (fst (cbcEncryptBlocks n b iv x)
     ++ fst (cbcEncryptBlocks m b (snd (cbcEncryptBlocks n b iv x)) y),
   snd (cbcEncryptBlocks m b (snd (cbcEncryptBlocks n b iv x)) y)).
Proof.
  induction n as [|n IH]; intros iv x y Hx.
  - destruct x; [|discriminate]. simpl.
    destruct (cbcEncryptBlocks m b iv y); reflexivity.
  - change (S n + m)%nat with (S (n + m)). cbn [cbcEncryptBlocks].
    rewrite firstn_block, skipn_block by lia.
    set (c := Encrypt (blk_key b) (XORBytes (firstn 16 x) iv)).
    rewrite IH by (rewrite length_skipn; lia).
    destruct (cbcEncryptBlocks n b c (skipn 16 x)) as [rest iv1].
    simpl fst; simpl snd.
    destruct (cbcEncryptBlocks m b iv1 y) as [cy iv2].
    simpl. rewrite app_assoc. reflexivity.
Qed.

Lemma cbcDecryptBlocks_app (n m : nat) (b : Block) : forall (iv x y : list byte),
  length x = (16 * n)%nat ->
  cbcDecryptBlocks (n + m) b iv (x ++ y) =
  (fst (cbcDecryptBlocks n b iv x)
     ++ fst (cbcDecryptBlocks m b (snd (cbcDecryptBlocks n b iv x)) y),
   snd (cbcDecryptBlocks m b (snd (cbcDecryptBlocks n b iv x)) y)).
Proof.
  induction n as [|n IH]; intros iv x y Hx.
  - destruct x; [|discriminate]. simpl.
    destruct (cbcDecryptBlocks m b iv y); reflexivity.
  - change (S n + m)%nat with (S (n + m)). cbn [cbcDecryptBlocks].
    rewrite firstn_block, skipn_block by lia.
    rewrite IH by (rewrite length_skipn; lia).
    destruct (cbcDecryptBlocks n b (firstn 16 x) (skipn 16 x)) as [rest iv1].
    simpl fst; simpl snd.
    destruct (cbcDecryptBlocks m b iv1 y) as [cy iv2].
    simpl. rewrite app_assoc. reflexivity.
Qed.

Lemma length_len {A : Type} (x : list A) (n : nat) :
  length x = n <-> len x = Z.of_nat n.
Proof. unfold len. lia. Qed.

Lemma XORBytes_len (x y : list byte) :
  len x = aes_BlockSize -> len y = aes_BlockSize ->
  len (XORBytes x y) = aes_BlockSize.
Proof.
  unfold len. intros Hx Hy. rewrite XORBytes_length; lia.
Qed.

Lemma firstn_16_len (x : list byte) :
  (16 <= length x)%nat -> len (firstn 16 x) = aes_BlockSize.
Proof.
  intros H. unfold len, aes_BlockSize. rewrite length_firstn. lia.
Qed.

Lemma cbcEncryptBlocks_length (n : nat) (b : Block) : forall (iv x : list byte),
  len (blk_key b) = aes256KeySize -> len iv = aes_BlockSize ->
  length x = (16 * n)%nat ->
  length (fst (cbcEncryptBlocks n b iv x)) = (16 * n)%nat /\
  len (snd (cbcEncryptBlocks n b iv x)) = aes_BlockSize.
Proof.
  induction n as [|n IH]; intros iv x Hk Hiv Hx.
  - simpl. auto.
  - cbn [cbcEncryptBlocks].
    set (c := Encrypt (blk_key b) (XORBytes (firstn 16 x) iv)).
    assert (Hc : len c = aes_BlockSize).
    { apply Encrypt_len; [exact Hk |].
      apply XORBytes_len; [apply firstn_16_len; lia | exact Hiv]. }
    destruct (IH c (skipn 16 x) Hk Hc) as [H1 H2];
      [rewrite length_skipn; lia |].
    destruct (cbcEncryptBlocks n b c (skipn 16 x)) as [rest iv1].
    simpl in *. split; [|exact H2].
    rewrite length_app. unfold len, aes_BlockSize in Hc. lia.
Qed.

Lemma cbcDecryptBlocks_length (n : nat) (b : Block) : forall (iv x : list byte),
  len (blk_key b) = aes256KeySize -> len iv = aes_BlockSize ->
  length x = (16 * n)%nat ->
  length (fst (cbcDecryptBlocks n b iv x)) = (16 * n)%nat /\
  len (snd (cbcDecryptBlocks n b iv x)) = aes_BlockSize.
Proof.
  induction n as [|n IH]; intros iv x Hk Hiv Hx.
  - simpl. auto.
  - cbn [cbcDecryptBlocks].
    assert (Hc : len (firstn 16 x) = aes_BlockSize)
      by (apply firstn_16_len; lia).
    assert (Hp : len (XORBytes (Decrypt (blk_key b) (firstn 16 x)) iv)
                 = aes_BlockSize).
    { apply XORBytes_len; [|exact Hiv]. apply Decrypt_len; assumption. }
    destruct (IH (firstn 16 x) (skipn 16 x) Hk Hc) as [H1 H2];
      [rewrite length_skipn; lia |].
    destruct (cbcDecryptBlocks n b (firstn 16 x) (skipn 16 x)) as [rest iv1].
    simpl in *. split; [|exact H2].
    rewrite length_app. unfold len, aes_BlockSize in Hp. lia.
Qed.

(** Decrypting what was encrypted from the same chaining value gives
    the plaintext back and leaves the same chaining value. *)
Lemma cbcDecryptBlocks_cbcEncryptBlocks (n : nat) (b : Block) :
  forall (iv x : list byte),
  len (blk_key b) = aes256KeySize -> len iv = aes_BlockSize ->
  length x = (16 * n)%nat ->
  cbcDecryptBlocks n b iv (fst (cbcEncryptBlocks n b iv x)) =
  (x, snd (cbcEncryptBlocks n b iv x)).
Proof.
  induction n as [|n IH]; intros iv x Hk Hiv Hx.
  - destruct x; [reflexivity | discriminate].
  - cbn [cbcEncryptBlocks].
    set (c := Encrypt (blk_key b) (XORBytes (firstn 16 x) iv)).
    assert (Hx16 : len (firstn 16 x) = aes_BlockSize)
      by (apply firstn_16_len; lia).
    assert (Hc : len c = aes_BlockSize).
    { apply Encrypt_len; [exact Hk |]. apply XORBytes_len; assumption. }
    specialize (IH c (skipn 16 x) Hk Hc).
    destruct (cbcEncryptBlocks n b c (skipn 16 x)) as [rest iv1].
    simpl fst in *; simpl snd in *.
    cbn [cbcDecryptBlocks].
    assert (Hc' : length c = 16%nat) by (unfold len, aes_BlockSize in Hc; lia).
    rewrite firstn_block, skipn_block by lia.
    replace (firstn 16 c) with c by (rewrite <- Hc', firstn_all; reflexivity).
    replace (skipn 16 c) with (@nil byte)
      by (rewrite <- Hc', skipn_all; reflexivity).
    simpl app.
    rewrite IH by (rewrite length_skipn; lia).
    unfold c. rewrite Decrypt_Encrypt;
      [| exact Hk | apply XORBytes_len; assumption].
    rewrite XORBytes_cancel by (unfold len in *; lia).
    rewrite firstn_skipn. reflexivity.
Qed.

End Chaining.

Section Modes.

Context {C : Crypto} {L : CryptoLaws C}.

Lemma aligned_length (data : list byte) :
  len data mod aes_BlockSize = 0 ->
  length data = (16 * Z.to_nat (len data / aes_BlockSize))%nat.
Proof.
  unfold aes_BlockSize, len. intros H.
  pose proof (Z.div_mod (Z.of_nat (length data)) 16). lia.
Qed.

Lemma blocks_app (x y : list byte) :
  len x mod aes_BlockSize = 0 ->
  Z.to_nat (len (x ++ y) / aes_BlockSize) =
  (Z.to_nat (len x / aes_BlockSize) + Z.to_nat (len y / aes_BlockSize))%nat.
Proof.
  unfold aes_BlockSize. intros H. rewrite len_app.
  pose proof (Z.div_mod (len x) 16).
  pose proof (len_nonneg x). pose proof (len_nonneg y).
  replace (len x + len y) with (len x / 16 * 16 + len y) by lia.
  rewrite Z.div_add_l by lia.
  rewrite Z2Nat.inj_add; [reflexivity | |]; apply Z.div_pos; lia.
Qed.

(** The chaining value carries over from one [CryptBlocks] call to the
    next: chaining a run of whole blocks and then the rest is chaining
    the whole. *)
Lemma chain_app (mode : BlockMode) (x y : list byte) :
  len x mod aes_BlockSize = 0 ->
  chain mode (x ++ y) =
  (fst (chain mode x) ++ fst (chain (snd (chain mode x)) y),
   snd (chain (snd (chain mode x)) y)).
Proof.
  intros H. unfold chain. rewrite (blocks_app x y H).
  pose proof (aligned_length x H) as Hx.
  destruct mode as [b [|] iv]; cbn [bm_dir bm_block bm_iv].
  - rewrite cbcEncryptBlocks_app by exact Hx.
    destruct (cbcEncryptBlocks _ b iv x) as [cx iv1].
    cbn [fst snd bm_dir bm_block bm_iv].
    destruct (cbcEncryptBlocks _ b iv1 y) as [cy iv2]. reflexivity.
  - rewrite cbcDecryptBlocks_app by exact Hx.
    destruct (cbcDecryptBlocks _ b iv x) as [cx iv1].
    cbn [fst snd bm_dir bm_block bm_iv].
    destruct (cbcDecryptBlocks _ b iv1 y) as [cy iv2]. reflexivity.
Qed.

Lemma chain_mode (mode : BlockMode) (data : list byte) :
  bm_dir (snd (chain mode data)) = bm_dir mode /\
  bm_block (snd (chain mode data)) = bm_block mode.
Proof.
  unfold chain.
  destruct (match bm_dir mode with
            | Encrypter => _
            | Decrypter => _
            end) as [out iv'].
  split; reflexivity.
Qed.

(** On whole blocks the output is as long as the input and the mode
    stays well-formed. *)
Lemma chain_len (mode : BlockMode) (data : list byte) :
  modeOK mode -> len data mod aes_BlockSize = 0 ->
  len (fst (chain mode data)) = len data /\ modeOK (snd (chain mode data)).
Proof.
  intros [Hk Hiv] H. pose proof (aligned_length data H) as Hd.
  unfold chain, modeOK.
  destruct mode as [b [|] iv]; cbn [bm_dir bm_block bm_iv] in *.
  - destruct (cbcEncryptBlocks_length _ b iv data Hk Hiv Hd) as [H1 H2].
    destruct (cbcEncryptBlocks _ b iv data) as [out iv'].
    cbn [fst snd bm_block bm_iv] in *.
    split; [unfold len; lia | split; assumption].
  - destruct (cbcDecryptBlocks_length _ b iv data Hk Hiv Hd) as [H1 H2].
    destruct (cbcDecryptBlocks _ b iv data) as [out iv'].
    cbn [fst snd bm_block bm_iv] in *.
    split; [unfold len; lia | split; assumption].
Qed.

(** A decrypter started on the key and chaining value an encrypter
    started on undoes it. *)
Lemma chain_Decrypter_Encrypter (b : Block) (iv data : list byte) :
  modeOK (mkBlockMode b Encrypter iv) -> len data mod aes_BlockSize = 0 ->
  fst (chain (mkBlockMode b Decrypter iv)
         (fst (chain (mkBlockMode b Encrypter iv) data))) = data.
Proof.
  intros Hm H.
  destruct (chain_len _ data Hm H) as [Hlen _].
  destruct Hm as [Hk Hiv]. cbn [bm_block bm_iv] in Hk, Hiv.
  pose proof (aligned_length data H) as Hd.
  unfold chain at 1. rewrite Hlen. cbn [bm_dir bm_block bm_iv].
  unfold chain. cbn [bm_dir bm_block bm_iv].
  pose proof (cbcDecryptBlocks_cbcEncryptBlocks _ b iv data Hk Hiv Hd) as E.
  destruct (cbcEncryptBlocks _ b iv data) as [out iv'].
  cbn [fst snd] in *. rewrite E. reflexivity.
Qed.

End Modes.

(** ** Steps of the codec on a writer that does not fail *)

(** [bufferSize] is a whole number of blocks. *)
Lemma bufferSize_aligned : bufferSize mod aes_BlockSize = 0.
Proof. reflexivity. Qed.

Lemma bufferSize_pos : 0 < bufferSize.
Proof. reflexivity. Qed.

(** Linear arithmetic with [bufferSize] kept abstract. *)
Ltac buf_lia :=
  repeat match goal with
         | H : context [bufferSize] |- _ => revert H
         end;
  generalize bufferSize; unfold len; intros; lia.

Section Steps.

Context {C : Crypto}.

(** A read that fills the buffer takes a chunk of [bufferSize] bytes off
    the front of the reader's data. *)
Lemma readFull_full (data : list byte) (e : ioError) (w : Writer) (g : Reader) :
  bufferSize <= len data ->
  exists chunk rest : list byte,
    data = chunk ++ rest /\ len chunk = bufferSize /\
    readFull bufferSize (mkWorld (mkReader data e) w g) =
    (Ok (chunk, None), mkWorld (mkReader rest e) w g).
Proof.
  intros H.
  exists (firstn (Z.to_nat bufferSize) data), (skipn (Z.to_nat bufferSize) data).
  split; [symmetry; apply firstn_skipn |].
  split; [apply len_firstn; split; [discriminate | exact H] |].
  unfold readFull, ReadFull. cbn [src dst rnd r_data r_err].
  apply Z.leb_le in H. rewrite H. reflexivity.
Qed.

Lemma readFull_short (n : Z) (data : list byte) (e : ioError) (w : Writer) (g : Reader) :
  len data < n ->
  readFull n (mkWorld (mkReader data e) w g) =
  (Ok (data, Some (shortError data e)), mkWorld (mkReader [] e) w g).
Proof.
  intros H. unfold readFull, ReadFull. cbn [src dst rnd r_data r_err].
  replace (n <=? len data) with false by (symmetry; apply Z.leb_gt; lia).
  reflexivity.
Qed.

Lemma write_healthy (p : list byte) (r : Reader) (out : list byte) (g : Reader) :
  write p (mkWorld r (mkWriter out None) g) =
  (Ok None, mkWorld r (mkWriter (out ++ p) None) g).
Proof. reflexivity. Qed.

Lemma writeEncryptedBlock_healthy (cbc : BlockMode) (data : list byte)
    (r : Reader) (out : list byte) (g : Reader) :
  len data mod aes_BlockSize = 0 ->
  writeEncryptedBlock cbc data (mkWorld r (mkWriter out None) g) =
  (Ok (snd (chain cbc data)),
   mkWorld r (mkWriter (out ++ fst (chain cbc data)) None) g).
Proof.
  intros H. unfold writeEncryptedBlock, CryptBlocks.
  rewrite H. cbn [Z.eqb]. unfold bind at 1. unfold lift.
  destruct (chain cbc data) as [encBlock cbc'].
  unfold bind at 1. rewrite write_healthy. reflexivity.
Qed.

Lemma processFinalBlock_healthy (cbc : BlockMode) (data : list byte)
    (hasWrittenData : bool) (r : Reader) (out : list byte) (g : Reader) :
  processFinalBlock cbc data (len data) hasWrittenData
    (mkWorld r (mkWriter out None) g) =
  (Ok tt,
   mkWorld r (mkWriter (out ++ fst (chain cbc (applyPKCS7Padding data))) None) g).
Proof.
  unfold processFinalBlock.
  destruct (Z.eqb_spec (len data) 0) as [E|E].
  - apply len_zero_nil in E. subst data.
    destruct hasWrittenData; cbn [negb].
    + change (bytes_Repeat [byteOfInt aes_BlockSize] aes_BlockSize)
        with (applyPKCS7Padding []).
      unfold bind. rewrite writeEncryptedBlock_healthy
        by apply applyPKCS7Padding_aligned.
      reflexivity.
    + unfold bind at 1. cbn [slice lift ofOption].
      change (slice [] 0 0) with (Some (@nil byte)). cbn [ofOption].
      unfold bind. rewrite writeEncryptedBlock_healthy
        by apply applyPKCS7Padding_aligned.
      reflexivity.
  - unfold bind at 1. rewrite slice_all. cbn [lift ofOption].
    unfold bind. rewrite writeEncryptedBlock_healthy
      by apply applyPKCS7Padding_aligned.
    reflexivity.
Qed.

(** The encoder's loop on a writer that does not fail: whatever error
    the reader ends with, the loop returns nil after writing the CBC
    encryption of the padded input. *)
Lemma EncryptStream_loop_healthy (fuel : nat) :
  forall (data : list byte) (e : ioError) (out : list byte) (g : Reader)
         (cbc : BlockMode) (hasWrittenData : bool),
  (length data < fuel)%nat ->
  EncryptStream_loop fuel cbc hasWrittenData
    (mkWorld (mkReader data e) (mkWriter out None) g) =
  (Ok tt,
   mkWorld (mkReader [] e)
     (mkWriter (out ++ fst (chain cbc (applyPKCS7Padding data))) None) g).
Proof.
  induction fuel as [|fuel IH]; intros data e out g cbc hw Hfuel; [lia |].
  cbn [EncryptStream_loop]. unfold bind at 1.
  pose proof bufferSize_pos as Hpos.
  destruct (Z.le_gt_cases bufferSize (len data)) as [Hfull | Hshort].
  - destruct (readFull_full data e (mkWriter out None) g Hfull)
      as (chunk & rest & Hdata & Hchunk & Hread).
    rewrite Hread.
    assert (Ha : len chunk mod aes_BlockSize = 0)
      by (rewrite Hchunk; apply bufferSize_aligned).
    rewrite Hchunk, Z.ltb_irrefl. cbn [isEOFish orb negb].
    unfold bind at 1. rewrite <- Hchunk at 1. rewrite slice_all.
    cbn [lift ofOption].
    unfold bind at 1. rewrite writeEncryptedBlock_healthy by exact Ha.
    unfold bind at 1. cbn [check ret].
    rewrite IH.
    + rewrite Hdata.
      rewrite applyPKCS7Padding_app, chain_app by exact Ha.
      cbn [fst]. rewrite app_assoc. reflexivity.
    + subst data. rewrite length_app in Hfuel. clear IH. buf_lia.
  - rewrite readFull_short by exact Hshort.
    apply Z.ltb_lt in Hshort. rewrite Hshort.
    cbn [orb]. apply processFinalBlock_healthy.
Qed.

End Steps.

(** ** The decoder's loop *)

Section DecoderLoop.

Context {C : Crypto} {L : CryptoLaws C}.

Lemma CryptBlocks_aligned (mode : BlockMode) (data : list byte) :
  len data mod aes_BlockSize = 0 -> CryptBlocks mode data = Ok (chain mode data).
Proof. intros H. unfold CryptBlocks. rewrite H. reflexivity. Qed.

Lemma CryptBlocks_unaligned (mode : BlockMode) (data : list byte) :
  len data mod aes_BlockSize <> 0 ->
  CryptBlocks mode data = Panic InputNotFullBlocks.
Proof.
  intros H. unfold CryptBlocks. apply Z.eqb_neq in H. rewrite H. reflexivity.
Qed.

Lemma chain_nil (mode : BlockMode) : chain mode [] = ([], mode).
Proof. destruct mode as [b [|] iv]; reflexivity. Qed.

Lemma write_pending_healthy (prev : list byte) (r : Reader) (out : list byte)
    (g : Reader) :
  (if len prev >? 0
   then err <- write prev ;; check "failed to write decrypted block: %w" err
   else ret tt) (mkWorld r (mkWriter out None) g) =
  (Ok tt, mkWorld r (mkWriter (out ++ prev) None) g).
Proof.
  destruct (Z.gtb_spec (len prev) 0) as [H|H].
  - unfold bind. rewrite write_healthy. reflexivity.
  - pose proof (len_nonneg prev).
    rewrite (len_zero_nil prev) by lia. rewrite app_nil_r. reflexivity.
Qed.

Lemma processDecryptionBlock_healthy (mode : BlockMode) (chunk : list byte)
    (isLastBlock : bool) (prev : list byte) (r : Reader) (out : list byte)
    (g : Reader) :
  modeOK mode -> len chunk mod aes_BlockSize = 0 ->
  processDecryptionBlock mode chunk (len chunk) isLastBlock prev
    (mkWorld r (mkWriter out None) g) =
  (Ok (if isLastBlock then [] else fst (chain mode chunk), snd (chain mode chunk)),
   mkWorld r
     (mkWriter (out ++ prev ++
                if isLastBlock then stripped (fst (chain mode chunk)) else [])
        None) g).
Proof.
  intros Hm Ha. unfold processDecryptionBlock.
  unfold bind at 1. rewrite slice_all. cbn [lift ofOption].
  unfold bind at 1. rewrite CryptBlocks_aligned by exact Ha. cbn [lift].
  destruct (chain_len mode chunk Hm Ha) as [Hlen _].
  destruct (chain mode chunk) as [cur mode']. cbn [fst snd] in *.
  unfold bind at 1. rewrite write_pending_healthy.
  destruct isLastBlock.
  - rewrite <- Hlen, removePKCS7Padding_ok.
    unfold bind, lift. rewrite write_healthy. cbn [check ret].
    rewrite <- app_assoc. reflexivity.
  - cbn [ret]. rewrite app_nil_r. reflexivity.
Qed.

Lemma handleEndOfFile_healthy (prev : list byte) (r : Reader) (out : list byte)
    (g : Reader) :
  handleEndOfFile prev (mkWorld r (mkWriter out None) g) =
  (Ok tt, mkWorld r (mkWriter (out ++ stripped prev) None) g).
Proof.
  unfold handleEndOfFile.
  destruct (Z.gtb_spec (len prev) 0) as [H|H].
  - rewrite removePKCS7Padding_ok. unfold bind, lift.
    rewrite write_healthy. reflexivity.
  - pose proof (len_nonneg prev).
    rewrite (len_zero_nil prev) by lia.
    rewrite stripped_nil, app_nil_r. reflexivity.
Qed.

Lemma aligned_app_inv (x y : list byte) :
  len x mod aes_BlockSize = 0 ->
  len (x ++ y) mod aes_BlockSize = len y mod aes_BlockSize.
Proof.
  unfold aes_BlockSize. intros H. rewrite len_app.
  rewrite Z.add_mod, H by lia. rewrite Z.add_0_l, Z.mod_mod by lia.
  reflexivity.
Qed.

(** On a writer that does not fail and a body of whole blocks the
    decoder's loop returns nil, whatever error the reader ends with and
    whatever the key: it writes the pending chunk and the CBC
    decryption of the body, less what the strip rule takes off the
    end. *)
Lemma DecryptStream_loop_healthy (fuel : nat) :
  forall (data : list byte) (e : ioError) (out : list byte) (g : Reader)
         (mode : BlockMode) (prev : list byte),
  (length data < fuel)%nat -> modeOK mode ->
  len data mod aes_BlockSize = 0 ->
  DecryptStream_loop fuel mode prev
    (mkWorld (mkReader data e) (mkWriter out None) g) =
  (Ok tt,
   mkWorld (mkReader [] e)
     (mkWriter (out ++ stripped (prev ++ fst (chain mode data))) None) g).
Proof.
  induction fuel as [|fuel IH]; intros data e out g mode prev Hfuel Hm Ha;
    [lia |].
  cbn [DecryptStream_loop]. unfold bind at 1.
  pose proof bufferSize_pos as Hpos.
  destruct (Z.le_gt_cases bufferSize (len data)) as [Hfull | Hshort].
  - destruct (readFull_full data e (mkWriter out None) g Hfull)
      as (chunk & rest & Hdata & Hchunk & Hread).
    rewrite Hread.
    assert (Hca : len chunk mod aes_BlockSize = 0)
      by (rewrite Hchunk; apply bufferSize_aligned).
    assert (Hra : len rest mod aes_BlockSize = 0)
      by (rewrite <- (aligned_app_inv chunk rest Hca), <- Hdata; exact Ha).
    replace (len chunk =? 0) with false
      by (symmetry; apply Z.eqb_neq; rewrite Hchunk; discriminate).
    replace (len chunk <? bufferSize) with false
      by (symmetry; rewrite Hchunk; apply Z.ltb_irrefl).
    cbn [isEOFish orb negb].
    unfold bind at 1.
    rewrite processDecryptionBlock_healthy by assumption.
    unfold bind at 1. cbn [check ret].
    destruct (chain_len mode chunk Hm Hca) as [Hlen Hm'].
    rewrite IH; [| subst data; rewrite length_app in Hfuel; clear IH; buf_lia
                 | exact Hm' | exact Hra].
    rewrite Hdata, chain_app by exact Hca. cbn [fst].
    destruct (chain_len (snd (chain mode chunk)) rest Hm' Hra) as [Hlen' _].
    rewrite (stripped_app prev).
    + rewrite app_nil_r, app_assoc. reflexivity.
    + rewrite aligned_app_inv by (rewrite Hlen; exact Hca).
      rewrite Hlen'. exact Hra.
    + rewrite len_app, Hlen, Hchunk.
      pose proof (len_nonneg (fst (chain (snd (chain mode chunk)) rest))). lia.
  - rewrite readFull_short by exact Hshort.
    destruct (Z.eqb_spec (len data) 0) as [E|E].
    + rewrite (len_zero_nil data E), chain_nil. cbn [fst].
      rewrite app_nil_r. apply handleEndOfFile_healthy.
    + apply Z.ltb_lt in Hshort. rewrite Hshort. cbn [orb].
      unfold bind at 1.
      rewrite processDecryptionBlock_healthy by assumption.
      cbn [ret].
      destruct (chain_len mode data Hm Ha) as [Hlen _].
      rewrite stripped_app; [reflexivity | rewrite Hlen; exact Ha |].
      rewrite Hlen. pose proof (len_nonneg data). lia.
Qed.




End DecoderLoop.

(** ** Key derivation and the header *)

Section Session.

Context {C : Crypto} {L : CryptoLaws C}.

Lemma deriveKeyAndIV_ok (password salt : list byte) :
  let keyIv := pbkdf2_Key password salt 10000 48 sha256_New in
  deriveKeyAndIV password salt = Ok (firstn 32 keyIv, firstn 16 (skipn 32 keyIv)) /\
  len (firstn 32 keyIv) = 32 /\ len (firstn 16 (skipn 32 keyIv)) = 16.
Proof.
  intros keyIv.
  assert (Hlen : len keyIv = 48) by (apply pbkdf2_Key_len; lia).
  unfold deriveKeyAndIV.
  change (pbkdf2_Key password salt pbkdf2Iterations
            (aes256KeySize + aes_BlockSize) sha256_New) with keyIv.
  rewrite (slice_prefix keyIv aes256KeySize)
    by (rewrite Hlen; cbv; split; discriminate).
  rewrite (slice_range keyIv ivOffset (ivOffset + aes_BlockSize))
    by (rewrite Hlen; cbv; repeat split; discriminate).
  change (Z.to_nat aes256KeySize) with 32%nat.
  change (Z.to_nat (ivOffset + aes_BlockSize - ivOffset)) with 16%nat.
  change (Z.to_nat ivOffset) with 32%nat.
  split; [reflexivity |].
  unfold len in *. rewrite !length_firstn, length_skipn. lia.
Qed.

Lemma sessionMode_ok (d : direction) (password salt : list byte) :
  modeOK (sessionMode d password salt) /\
  bm_dir (sessionMode d password salt) = d /\
  deriveKeyAndIV password salt =
  Ok (blk_key (bm_block (sessionMode d password salt)),
      bm_iv (sessionMode d password salt)).
Proof.
  unfold sessionMode, modeOK.
  destruct (deriveKeyAndIV_ok password salt) as (E & Hk & Hiv).
  rewrite E. cbn [bm_block bm_iv blk_key bm_dir].
  unfold aes256KeySize, aes_BlockSize. auto.
Qed.

Lemma aes_NewCipher_ok (key : list byte) :
  len key = aes256KeySize -> aes_NewCipher key = inr (mkBlock key).
Proof. unfold aes_NewCipher. intros ->. reflexivity. Qed.

Lemma NewCBC_ok (d : direction) (b : Block) (iv : list byte) :
  len iv = aes_BlockSize -> NewCBC d b iv = Ok (mkBlockMode b d iv).
Proof. unfold NewCBC. intros ->. reflexivity. Qed.

Lemma readFull_prefix (n : Z) (pre rest : list byte) (e : ioError)
    (w : Writer) (g : Reader) :
  len pre = n ->
  readFull n (mkWorld (mkReader (pre ++ rest) e) w g) =
  (Ok (pre, None), mkWorld (mkReader rest e) w g).
Proof.
  intros H. unfold readFull, ReadFull. cbn [src dst rnd r_data r_err].
  pose proof (len_nonneg rest).
  replace (n <=? len (pre ++ rest)) with true
    by (symmetry; apply Z.leb_le; rewrite len_app; lia).
  replace (Z.to_nat n) with (length pre) by (unfold len in H; lia).
  rewrite firstn_app, firstn_all, Nat.sub_diag, skipn_app, skipn_all, Nat.sub_diag.
  cbn [firstn skipn app]. rewrite app_nil_r. reflexivity.
Qed.

Lemma randReadFull_prefix (n : Z) (pre rest : list byte) (e : ioError)
    (w : Writer) (r : Reader) :
  len pre = n ->
  randReadFull n (mkWorld r w (mkReader (pre ++ rest) e)) =
  (Ok (pre, None), mkWorld r w (mkReader rest e)).
Proof.
  intros H. unfold randReadFull, ReadFull. cbn [src dst rnd r_data r_err].
  pose proof (len_nonneg rest).
  replace (n <=? len (pre ++ rest)) with true
    by (symmetry; apply Z.leb_le; rewrite len_app; lia).
  replace (Z.to_nat n) with (length pre) by (unfold len in H; lia).
  rewrite firstn_app, firstn_all, Nat.sub_diag, skipn_app, skipn_all, Nat.sub_diag.
  cbn [firstn skipn app]. rewrite app_nil_r. reflexivity.
Qed.

Lemma split_at (n : Z) (data : list byte) :
  0 <= n <= len data ->
  exists pre rest : list byte, data = pre ++ rest /\ len pre = n.
Proof.
  intros H. exists (firstn (Z.to_nat n) data), (skipn (Z.to_nat n) data).
  split; [symmetry; apply firstn_skipn | apply len_firstn; exact H].
Qed.

Lemma magicBytes_len : len magicBytes = saltSize.
Proof. reflexivity. Qed.

(** A header that opens with the magic tag is accepted, and the eight
    bytes after the tag come back as the salt. *)
Lemma readAndValidateHeader_valid (salt body : list byte) (e : ioError)
    (w : Writer) (g : Reader) :
  len salt = saltSize ->
  readAndValidateHeader (mkWorld (mkReader (magicBytes ++ salt ++ body) e) w g) =
  (Ok salt, mkWorld (mkReader body e) w g).
Proof.
  intros Hs. unfold readAndValidateHeader.
  unfold bind at 1. rewrite app_assoc.
  rewrite readFull_prefix
    by (rewrite len_app, Hs; reflexivity).
  unfold bind at 1. cbn [check ret].
  assert (Hs' : length salt = 8%nat) by (unfold len, saltSize in Hs; lia).
  assert (E1 : slice (magicBytes ++ salt) 0 saltSize = Some magicBytes).
  { rewrite slice_prefix by (rewrite len_app, Hs; cbv; split; discriminate).
    change (Z.to_nat saltSize) with (length magicBytes).
    rewrite firstn_app, firstn_all, Nat.sub_diag. cbn [firstn].
    rewrite app_nil_r. reflexivity. }
  assert (E2 : slice (magicBytes ++ salt) saltSize headerSize = Some salt).
  { unfold slice. rewrite len_app, Hs.
    change ((0 <=? saltSize) && (saltSize <=? headerSize)
            && (headerSize <=? len magicBytes + saltSize)) with true.
    cbn match. change (Z.to_nat saltSize) with (length magicBytes).
    rewrite skipn_app, skipn_all, Nat.sub_diag. cbn [skipn app].
    change (Z.to_nat (headerSize - saltSize)) with 8%nat.
    rewrite <- Hs', firstn_all. reflexivity. }
  unfold bind at 1. rewrite E1. cbn [lift ofOption].
  unfold magicBytes. rewrite string_of_list_byte_of_string.
  rewrite String.eqb_refl. cbn [negb]. fold magicBytes. rewrite E2.
  reflexivity.
Qed.

End Session.

(** ** The encoder and the decoder on a writer that does not fail *)

Section Codec.

Context {C : Crypto} {L : CryptoLaws C}.

Lemma sessionMode_eq (d : direction) (password salt : list byte) :
  let keyIv := pbkdf2_Key password salt 10000 48 sha256_New in
  sessionMode d password salt =
  mkBlockMode (mkBlock (firstn 32 keyIv)) d (firstn 16 (skipn 32 keyIv)).
Proof.
  intros keyIv. unfold sessionMode.
  destruct (deriveKeyAndIV_ok password salt) as (E & _). rewrite E.
  reflexivity.
Qed.

Lemma writeEncryptedHeader_healthy (salt more : list byte) (e' : ioError)
    (r : Reader) (out : list byte) :
  len salt = saltSize ->
  writeEncryptedHeader
    (mkWorld r (mkWriter out None) (mkReader (salt ++ more) e')) =
  (Ok salt,
   mkWorld r (mkWriter ((out ++ magicBytes) ++ salt) None) (mkReader more e')).
Proof.
  intros Hs. unfold writeEncryptedHeader.
  unfold bind at 1. rewrite randReadFull_prefix by exact Hs.
  unfold bind at 1. cbn [check ret].
  unfold bind at 1. rewrite write_healthy.
  unfold bind at 1. cbn [check ret].
  unfold bind at 1. rewrite write_healthy.
  reflexivity.
Qed.

Lemma setupEncryption_ok (password salt : list byte) (s : World) :
  setupEncryption password salt s = (Ok (sessionMode Encrypter password salt), s).
Proof.
  destruct (sessionMode_ok Encrypter password salt) as ((Hk & Hiv) & _ & E).
  unfold setupEncryption. unfold bind at 1. rewrite E. cbn [lift].
  rewrite aes_NewCipher_ok by exact Hk.
  unfold NewCBCEncrypter. rewrite NewCBC_ok by exact Hiv.
  rewrite (sessionMode_eq Encrypter). reflexivity.
Qed.

(** The container [EncryptStream] writes: tag, salt, and the CBC
    encryption of the padded input.  The reader's closing error plays
    no part. *)
Lemma EncryptStream_healthy (password P : list byte) (e : ioError)
    (out salt more : list byte) (e' : ioError) :
  len salt = saltSize ->
  EncryptStream password
    (mkWorld (mkReader P e) (mkWriter out None) (mkReader (salt ++ more) e')) =
  (Ok tt,
   mkWorld (mkReader [] e)
     (mkWriter (((out ++ magicBytes) ++ salt)
                ++ fst (chain (sessionMode Encrypter password salt)
                          (applyPKCS7Padding P))) None)
     (mkReader more e')).
Proof.
  intros Hs. unfold EncryptStream.
  unfold bind at 1. rewrite writeEncryptedHeader_healthy by exact Hs.
  unfold bind at 1. rewrite setupEncryption_ok.
  unfold loopFuel. cbn [src r_data].
  apply EncryptStream_loop_healthy. lia.
Qed.

(** Past a valid header the decoder runs its loop on the body, from the
    mode derived from the password and bytes 8..15 of the input. *)
Lemma DecryptStream_valid_header (password salt body : list byte) (e : ioError)
    (w : Writer) (g : Reader) :
  len salt = saltSize ->
  DecryptStream password
    (mkWorld (mkReader (magicBytes ++ salt ++ body) e) w g) =
  DecryptStream_loop (S (length body)) (sessionMode Decrypter password salt) []
    (mkWorld (mkReader body e) w g).
Proof.
  intros Hs. unfold DecryptStream.
  unfold bind at 1. rewrite readAndValidateHeader_valid by exact Hs.
  destruct (sessionMode_ok Decrypter password salt) as ((Hk & Hiv) & _ & E).
  unfold bind at 1. rewrite E. cbn [lift].
  rewrite aes_NewCipher_ok by exact Hk.
  unfold NewCBCDecrypter. unfold bind at 1. rewrite NewCBC_ok by exact Hiv.
  rewrite (sessionMode_eq Decrypter). reflexivity.
Qed.

Lemma DecryptStream_healthy (password salt body : list byte) (e : ioError)
    (out : list byte) (g : Reader) :
  len salt = saltSize -> len body mod aes_BlockSize = 0 ->
  DecryptStream password
    (mkWorld (mkReader (magicBytes ++ salt ++ body) e) (mkWriter out None) g) =
  (Ok tt,
   mkWorld (mkReader [] e)
     (mkWriter (out ++ stripped (fst (chain (sessionMode Decrypter password salt)
                                        body))) None) g).
Proof.
  intros Hs Ha. rewrite DecryptStream_valid_header by exact Hs.
  rewrite DecryptStream_loop_healthy;
    [reflexivity | lia | apply sessionMode_ok | exact Ha].
Qed.

(** What [encryptBytes] returns when [rand.Reader] can supply a salt. *)
Lemma encryptBytes_ok (password P : list byte) (rand : Reader) :
  saltSize <= len (r_data rand) ->
  exists salt : list byte,
    salt = firstn 8 (r_data rand) /\ len salt = saltSize /\
    encryptBytes password P rand =
    (Ok tt,
     magicBytes ++ salt
       ++ fst (chain (sessionMode Encrypter password salt) (applyPKCS7Padding P))).
Proof.
  intros H. destruct rand as [rd re]. cbn [r_data] in *.
  exists (firstn 8 rd).
  assert (Hs : len (firstn 8 rd) = saltSize)
    by (apply (len_firstn 8); unfold saltSize in H; lia).
  split; [reflexivity |]. split; [exact Hs |].
  unfold encryptBytes, bytes_NewReader, bytes_Buffer.
  rewrite <- (firstn_skipn 8 rd) at 1.
  rewrite EncryptStream_healthy by exact Hs.
  cbn [dst w_out app]. rewrite <- app_assoc. reflexivity.
Qed.

Lemma ciphertext_len (mode : BlockMode) (P : list byte) :
  modeOK mode ->
  len (fst (chain mode (applyPKCS7Padding P))) =
  len P + (aes_BlockSize - len P mod aes_BlockSize).
Proof.
  intros Hm.
  destruct (chain_len mode _ Hm (applyPKCS7Padding_aligned P)) as [H _].
  rewrite H. apply applyPKCS7Padding_len.
Qed.

(** C1.  Round trip: for every plaintext P and password, when
    [rand.Reader] supplies the eight salt bytes, [EncryptStream] from a
    reader over P into a buffer returns nil, and [DecryptStream] with
    the same password on the bytes it wrote returns nil and writes
    exactly P.  P is arbitrary: empty, shorter or longer than a block,
    shorter or longer than the 1 MiB buffer. *)
Theorem round_trip (password P : list byte) (rand : Reader) :
  saltSize <= len (r_data rand) ->
  exists container : list byte,
    encryptBytes password P rand = (Ok tt, container) /\
    decryptBytes password container = (Ok tt, P).
Proof.
  intros H.
  destruct (encryptBytes_ok password P rand H) as (salt & _ & Hs & E).
  eexists. split; [exact E |].
  destruct (sessionMode_ok Encrypter password salt) as (Hm & _ & _).
  destruct (chain_len _ _ Hm (applyPKCS7Padding_aligned P)) as [Hlen _].
  unfold decryptBytes, bytes_NewReader, bytes_Buffer.
  rewrite DecryptStream_healthy;
    [| exact Hs | rewrite Hlen; apply applyPKCS7Padding_aligned].
  cbn [dst w_out app].
  rewrite (sessionMode_eq Decrypter), (sessionMode_eq Encrypter) in *.
  cbv zeta in *.
  rewrite chain_Decrypter_Encrypter;
    [| exact Hm | apply applyPKCS7Padding_aligned].
  rewrite stripped_pad. reflexivity.
Qed.

(** C2.  Padding invariant: what [EncryptStream] writes is the 16-byte
    header (tag, then salt) followed by a body of exactly
    16 * ceil((len P + 1) / 16) bytes; that is a positive multiple of
    16 and more than len P rounded down to a block boundary, also for
    the empty P. *)
Theorem padding_invariant (password P : list byte) (rand : Reader) :
  saltSize <= len (r_data rand) ->
  exists body : list byte,
    encryptBytes password P rand =
      (Ok tt, magicBytes ++ firstn 8 (r_data rand) ++ body) /\
    len (magicBytes ++ firstn 8 (r_data rand)) = headerSize /\
    len body = 16 * ((len P + 1 + 15) / 16) /\
    len body mod 16 = 0 /\ 0 < len body /\
    16 * (len P / 16) < len body.
Proof.
  intros H.
  destruct (encryptBytes_ok password P rand H) as (salt & Hsalt & Hs & E).
  subst salt. eexists. split; [exact E |].
  destruct (sessionMode_ok Encrypter password (firstn 8 (r_data rand)))
    as (Hm & _ & _).
  rewrite (ciphertext_len _ P Hm), len_app, Hs.
  unfold aes_BlockSize.
  pose proof (len_nonneg P) as HP.
  pose proof (Z.div_mod (len P) 16) as Hdm.
  pose proof (Z.mod_pos_bound (len P) 16) as Hmod.
  assert (Hceil : (len P + 1 + 15) / 16 = len P / 16 + 1).
  { replace (len P + 1 + 15) with (len P + 1 * 16) by lia.
    apply Z.div_add. lia. }
  rewrite Hceil.
  split; [reflexivity |].
  split; [lia |].
  split.
  - replace (len P + (16 - len P mod 16)) with ((len P / 16 + 1) * 16) by lia.
    apply Z.mod_mul. lia.
  - lia.
Qed.

End Codec.

(** ** Claims about the decoder's header, errors and panics *)

Section Decoder.

Context {C : Crypto} {L : CryptoLaws C}.

Lemma firstn_exact {A : Type} (n : nat) (x y : list A) :
  length x = n -> firstn n (x ++ y) = x.
Proof.
  intros <-. rewrite firstn_app, firstn_all, Nat.sub_diag.
  cbn [firstn]. apply app_nil_r.
Qed.

Lemma skipn_exact {A : Type} (n : nat) (x y : list A) :
  length x = n -> skipn n (x ++ y) = y.
Proof.
  intros <-. rewrite skipn_app, skipn_all, Nat.sub_diag. reflexivity.
Qed.

Lemma bytes_eqb_eq (x y : list byte) : bytes_eqb x y = true <-> x = y.
Proof.
  revert y. induction x as [|a x IH]; intros [|b y]; cbn [bytes_eqb];
    try (split; [discriminate | discriminate]); [tauto |].
  rewrite andb_true_iff, IH. split.
  - intros [H1 H2]. apply Byte.byte_dec_bl in H1. congruence.
  - intros H. injection H as -> ->. split; [apply Byte.byte_dec_lb |]; reflexivity.
Qed.

Lemma magic_mismatch (m : list byte) :
  m <> magicBytes -> String.eqb (string_of_list_byte m) magicHeader = false.
Proof.
  intros H. apply String.eqb_neq. intros E. apply H.
  unfold magicBytes. rewrite <- E.
  symmetry. apply list_byte_of_string_of_list_byte.
Qed.

Lemma readAndValidateHeader_short (data : list byte) (e : ioError)
    (w : Writer) (g : Reader) :
  len data < headerSize ->
  readAndValidateHeader (mkWorld (mkReader data e) w g) =
  (Err (Wrap "failed to read header: %w" (IOErr (shortError data e))),
   mkWorld (mkReader [] e) w g).
Proof.
  intros H. unfold readAndValidateHeader.
  unfold bind at 1. rewrite readFull_short by exact H. reflexivity.
Qed.

Lemma readAndValidateHeader_mismatch (m salt body : list byte) (e : ioError)
    (w : Writer) (g : Reader) :
  len m = saltSize -> len salt = saltSize -> m <> magicBytes ->
  readAndValidateHeader (mkWorld (mkReader ((m ++ salt) ++ body) e) w g) =
  (Err (New "invalid file format"), mkWorld (mkReader body e) w g).
Proof.
  intros Hm Hs Hne. unfold readAndValidateHeader.
  unfold bind at 1.
  rewrite readFull_prefix by (rewrite len_app, Hm, Hs; reflexivity).
  unfold bind at 1. cbn [check ret].
  unfold bind at 1.
  rewrite slice_prefix
    by (rewrite len_app, Hm, Hs; cbv; split; discriminate).
  change (Z.to_nat saltSize) with 8%nat.
  rewrite (firstn_exact 8 m) by (unfold len, saltSize in Hm; lia).
  cbn [lift ofOption]. rewrite magic_mismatch by exact Hne.
  reflexivity.
Qed.

(** C4.  The header check of [DecryptStream], case by case on the
    input: with fewer than 16 bytes the call returns the error of the
    failed header read; with 16 bytes or more whose first 8 are not the
    magic tag it returns "invalid file format"; both are FormatErrors
    and in both the writer is left as it was, so no ciphertext has been
    processed.  Otherwise the call goes on to its loop over the bytes
    from offset 16, with the mode derived from the password and bytes
    8..15 as the salt. *)
Theorem DecryptStream_header (password data : list byte) (e : ioError)
    (w : Writer) (g : Reader) :
  DecryptStream password (mkWorld (mkReader data e) w g) =
  (if len data <? headerSize then
     (Err (Wrap "failed to read header: %w" (IOErr (shortError data e))),
      mkWorld (mkReader [] e) w g)
   else if negb (bytes_eqb (firstn 8 data) magicBytes) then
     (Err (New "invalid file format"), mkWorld (mkReader (skipn 16 data) e) w g)
   else
     DecryptStream_loop (S (length (skipn 16 data)))
       (sessionMode Decrypter password (firstn 8 (skipn 8 data))) []
       (mkWorld (mkReader (skipn 16 data) e) w g)) /\
  FormatError (Wrap "failed to read header: %w" (IOErr (shortError data e))) /\
  FormatError (New "invalid file format").
Proof.
  split; [| split; [left; eauto | right; reflexivity]].
  destruct (Z.ltb_spec (len data) headerSize) as [Hshort | Hlong].
  - unfold DecryptStream. unfold bind at 1.
    rewrite readAndValidateHeader_short by exact Hshort. reflexivity.
  - destruct (split_at 16 data) as (header & body & -> & Hh);
      [pose proof (len_nonneg data); unfold headerSize in Hlong; lia |].
    destruct (split_at 8 header) as (m & salt & -> & Hm); [lia |].
    assert (Hm' : length m = 8%nat) by (unfold len in Hm; lia).
    assert (Hs : len salt = saltSize)
      by (rewrite len_app in Hh; unfold saltSize; lia).
    assert (Hs' : length salt = 8%nat) by (unfold len, saltSize in Hs; lia).
    rewrite (skipn_exact 16 (m ++ salt)) by (rewrite length_app; lia).
    rewrite <- (app_assoc m salt body).
    rewrite (firstn_exact 8 m) by exact Hm'.
    rewrite (skipn_exact 8 m) by exact Hm'.
    rewrite (firstn_exact 8 salt) by exact Hs'.
    destruct (bytes_eqb m magicBytes) eqn:Em; cbn [negb].
    + apply bytes_eqb_eq in Em. subst m.
      apply DecryptStream_valid_header. exact Hs.
    + assert (Hne : m <> magicBytes).
      { intros E. apply bytes_eqb_eq in E. congruence. }
      unfold DecryptStream. unfold bind at 1. rewrite app_assoc.
      rewrite readAndValidateHeader_mismatch by assumption.
      reflexivity.
Qed.

(** C5.  Key derivation: one call of PBKDF2 on HMAC-SHA-256 with 10000
    iterations and 48 bytes asked for; bytes 0..31 of its output are
    the key, bytes 32..47 the IV, 32 and 16 bytes long and together the
    whole output; equal (password, salt) give equal (key, iv). *)
Theorem deriveKeyAndIV_spec (password salt : list byte) :
  let keyIv := pbkdf2_Key password salt 10000 (32 + 16) sha256_New in
  let key := firstn 32 keyIv in
  let iv := firstn 16 (skipn 32 keyIv) in
  deriveKeyAndIV password salt = Ok (key, iv) /\
  len key = 32 /\ len iv = 16 /\ key ++ iv = keyIv /\
  forall password' salt' : list byte,
    password' = password -> salt' = salt ->
    deriveKeyAndIV password' salt' = Ok (key, iv).
Proof.
  cbv zeta.
  destruct (deriveKeyAndIV_ok password salt) as (E & Hk & Hiv).
  cbv zeta in *.
  change (32 + 16) with 48.
  split; [exact E |]. split; [exact Hk |]. split; [exact Hiv |].
  split.
  - set (keyIv := pbkdf2_Key password salt 10000 48 sha256_New) in *.
    assert (Hlen : len keyIv = 48) by (apply pbkdf2_Key_len; lia).
    rewrite <- (firstn_skipn 32 keyIv) at 3. f_equal.
    apply firstn_all2. unfold len in Hlen. rewrite length_skipn. lia.
  - intros password' salt' -> ->. exact E.
Qed.

(** C7.  A container that is a valid header and nothing more: the call
    returns nil and leaves the writer as it was, whatever the writer
    and whatever error the reader would report next. *)
Theorem DecryptStream_empty_body (password salt : list byte) (e : ioError)
    (w : Writer) (g : Reader) :
  len salt = saltSize ->
  DecryptStream password (mkWorld (mkReader (magicBytes ++ salt) e) w g) =
  (Ok tt, mkWorld (mkReader [] e) w g).
Proof.
  intros Hs.
  rewrite <- (app_nil_r salt) at 1.
  rewrite DecryptStream_valid_header by exact Hs.
  cbn [DecryptStream_loop length]. unfold bind at 1.
  rewrite readFull_short by reflexivity.
  reflexivity.
Qed.

Lemma stripped_cases (x : list byte) :
  stripped x = x \/
  exists p : Z, 1 <= p <= 16 /\ p <= len x /\
    stripped x = firstn (Z.to_nat (len x - p)) x.
Proof.
  destruct (snoc_cases x) as [-> | (pre & b & ->)]; [left; reflexivity |].
  unfold stripped. rewrite removePKCS7Padding_last.
  destruct (Z.leb_spec 1 (intOfByte b)); [| left; reflexivity].
  destruct (Z.leb_spec (intOfByte b) 16); [| left; reflexivity].
  destruct (Z.leb_spec (intOfByte b) (len (pre ++ [b]))); [| left; reflexivity].
  right. exists (intOfByte b). cbn [andb]. repeat split; assumption.
Qed.

(** C8.  Wrong password: for every container [EncryptStream] produced
    and every password given to [DecryptStream], the decoder returns
    nil: no panic, no error.  What it writes is the CBC decryption of
    the body under the key of that password, as long as the body,
    either unmodified or with its last p bytes dropped for some p in
    1..16. *)
Theorem wrong_password (password password' P : list byte) (rand : Reader) :
  saltSize <= len (r_data rand) ->
  exists container garbage : list byte,
    encryptBytes password P rand = (Ok tt, container) /\
    len garbage = len container - headerSize /\
    decryptBytes password' container = (Ok tt, stripped garbage) /\
    (stripped garbage = garbage \/
     exists p : Z, 1 <= p <= 16 /\ p <= len garbage /\
       stripped garbage = firstn (Z.to_nat (len garbage - p)) garbage).
Proof.
  intros H.
  destruct (encryptBytes_ok password P rand H) as (salt & _ & Hs & E).
  destruct (sessionMode_ok Encrypter password salt) as (Hm & _ & _).
  destruct (sessionMode_ok Decrypter password' salt) as (Hm' & _ & _).
  destruct (chain_len _ _ Hm (applyPKCS7Padding_aligned P)) as [Hlen _].
  set (body := fst (chain (sessionMode Encrypter password salt)
                      (applyPKCS7Padding P))) in *.
  assert (Ha : len body mod aes_BlockSize = 0)
    by (rewrite Hlen; apply applyPKCS7Padding_aligned).
  destruct (chain_len _ body Hm' Ha) as [Hlen' _].
  exists (magicBytes ++ salt ++ body),
         (fst (chain (sessionMode Decrypter password' salt) body)).
  split; [exact E |]. split.
  - rewrite Hlen', !len_app, Hs. unfold headerSize, saltSize.
    change (len magicBytes) with 8. lia.
  - split; [| apply stripped_cases].
    unfold decryptBytes, bytes_NewReader, bytes_Buffer.
    rewrite DecryptStream_healthy by assumption. reflexivity.
Qed.




(** C6, as the code has it.  A reader that ends with an error [e], any
    error and not only end of input, does not make either call return
    an error: [EncryptStream] pads and writes what was read and returns
    nil, and so does [DecryptStream] on a body of whole blocks. *)
Theorem read_error_returns_nil (password P salt body : list byte) (e : ioError)
    (rand g : Reader) :
  saltSize <= len (r_data rand) -> len salt = saltSize ->
  len body mod aes_BlockSize = 0 ->
  fst (EncryptStream password (mkWorld (mkReader P e) bytes_Buffer rand)) = Ok tt /\
  fst (DecryptStream password
         (mkWorld (mkReader (magicBytes ++ salt ++ body) e) bytes_Buffer g)) = Ok tt.
Proof.
  intros Hr Hs Ha. split.
  - destruct rand as [rd re]. cbn [r_data] in Hr.
    destruct (split_at 8 rd) as (s8 & more & -> & H8);
      [pose proof (len_nonneg rd); unfold saltSize in Hr; lia |].
    unfold bytes_Buffer. rewrite EncryptStream_healthy by exact H8.
    reflexivity.
  - unfold bytes_Buffer. rewrite DecryptStream_healthy by assumption.
    reflexivity.
Qed.

End Decoder.

(** ** The fuel is enough

    Whatever the reader, the writer and the primitives, neither call
    uses up the fuel its loop is given. *)

Section Fuel.

Context {C : Crypto}.

Lemma bind_total {A B : Type} (m : M A) (k : A -> M B) (s : World) :
  fst (m s) <> OutOfFuel ->
  (forall a s', m s = (Ok a, s') -> fst (k a s') <> OutOfFuel) ->
  fst (bind m k s) <> OutOfFuel.
Proof.
  intros Hm Hk. unfold bind.
  destruct (m s) as [[a | e | p |] s'] eqn:E; cbn [fst] in *;
    try discriminate; [apply Hk; reflexivity | contradiction].
Qed.

Lemma bind_src {A B : Type} (m : M A) (k : A -> M B) :
  (forall s, src (snd (m s)) = src s) ->
  (forall a s, src (snd (k a s)) = src s) ->
  forall s, src (snd (bind m k s)) = src s.
Proof.
  intros Hm Hk s. unfold bind. specialize (Hm s).
  destruct (m s) as [[a | e | p |] s']; cbn [snd] in *; try exact Hm.
  rewrite Hk. exact Hm.
Qed.

Ltac total_step :=
  match goal with
  | |- fst (bind _ _ _) <> OutOfFuel => apply bind_total; [| intros]
  | |- fst (lift (ofOption _ ?o) _) <> OutOfFuel => destruct o; discriminate
  | |- fst (ret _ _) <> OutOfFuel => discriminate
  | |- fst (fail _ _) <> OutOfFuel => discriminate
  | |- fst (check _ ?e _) <> OutOfFuel => destruct e; discriminate
  | |- fst (write _ _) <> OutOfFuel =>
      unfold write; destruct (Write _ _); discriminate
  | |- fst (readFull _ _) <> OutOfFuel =>
      unfold readFull; destruct (ReadFull _ _); discriminate
  | |- fst (randReadFull _ _) <> OutOfFuel =>
      unfold randReadFull; destruct (ReadFull _ _); discriminate
  | |- fst ((if ?c then _ else _) _) <> OutOfFuel => destruct c
  | |- fst (match ?x with (_, _) => _ end _) <> OutOfFuel => destruct x
  end.

Ltac src_step :=
  match goal with
  | |- forall _, _ => intro
  | |- src (snd (bind _ _ _)) = src _ => apply bind_src
  | |- src (snd (lift _ _)) = src _ => reflexivity
  | |- src (snd (ret _ _)) = src _ => reflexivity
  | |- src (snd (fail _ _)) = src _ => reflexivity
  | |- src (snd (check _ ?e _)) = src _ => destruct e; reflexivity
  | |- src (snd (write _ _)) = src _ =>
      unfold write; destruct (Write _ _); reflexivity
  | |- src (snd ((if ?c then _ else _) _)) = src _ => destruct c
  | |- src (snd (match ?x with (_, _) => _ end _)) = src _ => destruct x
  end.

Lemma CryptBlocks_total (mode : BlockMode) (data : list byte) (s : World) :
  fst (lift (CryptBlocks mode data) s) <> OutOfFuel.
Proof.
  unfold lift, CryptBlocks. destruct (_ =? 0); discriminate.
Qed.

Lemma removePKCS7Padding_total (data : list byte) (n : Z) (s : World) :
  fst (lift (removePKCS7Padding data n) s) <> OutOfFuel.
Proof.
  unfold lift, removePKCS7Padding.
  destruct (n =? 0); [discriminate |].
  destruct (index data (n - 1)); [| discriminate].
  destruct (_ || _); [discriminate |].
  destruct (slice data 0 _); discriminate.
Qed.

Lemma deriveKeyAndIV_total (password salt : list byte) (s : World) :
  fst (lift (deriveKeyAndIV password salt) s) <> OutOfFuel.
Proof.
  unfold lift, deriveKeyAndIV.
  destruct (slice _ 0 _); [| discriminate].
  destruct (slice _ ivOffset _); discriminate.
Qed.

Lemma NewCBC_total (d : direction) (b : Block) (iv : list byte) (s : World) :
  fst (lift (NewCBC d b iv) s) <> OutOfFuel.
Proof. unfold lift, NewCBC. destruct (_ =? _); discriminate. Qed.

Lemma writeEncryptedBlock_total (cbc : BlockMode) (data : list byte) (s : World) :
  fst (writeEncryptedBlock cbc data s) <> OutOfFuel.
Proof.
  unfold writeEncryptedBlock.
  apply bind_total; [apply CryptBlocks_total | intros [encBlock cbc'] s1 _].
  repeat total_step.
Qed.

Lemma writeEncryptedBlock_src (cbc : BlockMode) (data : list byte) (s : World) :
  src (snd (writeEncryptedBlock cbc data s)) = src s.
Proof. unfold writeEncryptedBlock. revert s. repeat src_step. Qed.

Lemma processFinalBlock_total (cbc : BlockMode) (data : list byte) (n : Z)
    (hasWrittenData : bool) (s : World) :
  fst (processFinalBlock cbc data n hasWrittenData s) <> OutOfFuel.
Proof.
  unfold processFinalBlock.
  repeat (total_step || apply writeEncryptedBlock_total).
Qed.

Lemma processDecryptionBlock_total (mode : BlockMode) (buf : list byte) (n : Z)
    (isLastBlock : bool) (prev : list byte) (s : World) :
  fst (processDecryptionBlock mode buf n isLastBlock prev s) <> OutOfFuel.
Proof.
  unfold processDecryptionBlock.
  repeat (total_step || apply CryptBlocks_total
          || apply removePKCS7Padding_total).
Qed.

Lemma processDecryptionBlock_src (mode : BlockMode) (buf : list byte) (n : Z)
    (isLastBlock : bool) (prev : list byte) (s : World) :
  src (snd (processDecryptionBlock mode buf n isLastBlock prev s)) = src s.
Proof. unfold processDecryptionBlock. revert s. repeat src_step. Qed.

Lemma handleEndOfFile_total (prev : list byte) (s : World) :
  fst (handleEndOfFile prev s) <> OutOfFuel.
Proof.
  unfold handleEndOfFile.
  repeat (total_step || apply removePKCS7Padding_total).
Qed.

(** A read either fills the buffer, and then the reader has that many
    bytes less, or falls short and reports an error. *)
Lemma readFull_inv (n : Z) (s s' : World) (buf : list byte)
    (err : option ioError) :
  0 <= n ->
  readFull n s = (Ok (buf, err), s') ->
  (err = None /\ len buf = n /\
   len (r_data (src s')) = len (r_data (src s)) - n) \/
  (err <> None /\ len buf < n).
Proof.
  intros Hn. unfold readFull, ReadFull.
  destruct (Z.leb_spec n (len (r_data (src s)))) as [H | H];
    intros E; injection E as <- <- <-; cbn [src r_data].
  - left. split; [reflexivity |].
    split; [apply len_firstn | apply len_skipn]; lia.
  - right. split; [discriminate | exact H].
Qed.

Lemma EncryptStream_loop_total (fuel : nat) :
  forall (cbc : BlockMode) (hasWrittenData : bool) (s : World),
  (length (r_data (src s)) < fuel)%nat ->
  fst (EncryptStream_loop fuel cbc hasWrittenData s) <> OutOfFuel.
Proof.
  induction fuel as [|fuel IH]; intros cbc hw s Hfuel; [lia |].
  cbn [EncryptStream_loop].
  apply bind_total; [total_step | intros [buf err] s1 Hread].
  destruct (readFull_inv _ _ _ _ _ (Z.lt_le_incl _ _ bufferSize_pos) Hread)
    as [(-> & Hlen & Hsz) | (Hne & Hlen)].
  - rewrite Hlen, Z.ltb_irrefl. cbn [isEOFish orb negb].
    apply bind_total; [total_step | intros chunk s2 E2].
    apply bind_total; [apply writeEncryptedBlock_total | intros cbc' s3 E3].
    apply bind_total; [total_step | intros [] s4 E4].
    apply IH.
    injection E4 as <-.
    pose proof (writeEncryptedBlock_src cbc chunk s2) as Hs3.
    rewrite E3 in Hs3. cbn [snd] in Hs3. rewrite Hs3.
    unfold lift in E2. injection E2 as _ <-.
    pose proof bufferSize_pos. clear IH Hread. buf_lia.
  - apply Z.ltb_lt in Hlen. rewrite Hlen. cbn [orb].
    apply processFinalBlock_total.
Qed.

Lemma DecryptStream_loop_total (fuel : nat) :
  forall (mode : BlockMode) (prev : list byte) (s : World),
  (length (r_data (src s)) < fuel)%nat ->
  fst (DecryptStream_loop fuel mode prev s) <> OutOfFuel.
Proof.
  induction fuel as [|fuel IH]; intros mode prev s Hfuel; [lia |].
  cbn [DecryptStream_loop].
  apply bind_total; [total_step | intros [buf err] s1 Hread].
  destruct (Z.eqb_spec (len buf) 0) as [E0 | E0];
    [apply handleEndOfFile_total |].
  destruct (readFull_inv _ _ _ _ _ (Z.lt_le_incl _ _ bufferSize_pos) Hread)
    as [(-> & Hlen & Hsz) | (Hne & Hlen)].
  - rewrite Hlen, Z.ltb_irrefl. cbn [isEOFish orb negb].
    apply bind_total;
      [apply processDecryptionBlock_total | intros [next mode'] s2 E2].
    apply bind_total; [total_step | intros [] s3 E3].
    apply IH.
    injection E3 as <-.
    pose proof (processDecryptionBlock_src mode buf bufferSize false prev s1)
      as Hs2.
    rewrite E2 in Hs2. cbn [snd] in Hs2. rewrite Hs2.
    pose proof bufferSize_pos. clear IH Hread E2. buf_lia.
  - apply Z.ltb_lt in Hlen. rewrite Hlen. cbn [orb].
    apply bind_total;
      [apply processDecryptionBlock_total | intros [next mode'] s2 E2].
    discriminate.
Qed.

(** [EncryptStream] always comes to an end: a result, an error or a
    panic. *)
Lemma EncryptStream_total (password : list byte) (s : World) :
  fst (EncryptStream password s) <> OutOfFuel.
Proof.
  unfold EncryptStream, writeEncryptedHeader, setupEncryption.
  repeat (total_step || apply deriveKeyAndIV_total).
  - destruct (aes_NewCipher _); [discriminate | apply NewCBC_total].
  - apply EncryptStream_loop_total. unfold loopFuel. lia.
Qed.

(** So does [DecryptStream]. *)
Lemma DecryptStream_total (password : list byte) (s : World) :
  fst (DecryptStream password s) <> OutOfFuel.
Proof.
  unfold DecryptStream, readAndValidateHeader.
  repeat (total_step || apply deriveKeyAndIV_total).
  destruct (aes_NewCipher _); [discriminate |].
  apply bind_total; [apply NewCBC_total | intros mode s1 _].
  apply DecryptStream_loop_total. unfold loopFuel. lia.
Qed.

End Fuel.

(** ** The read-error exits of the loops are dead

    [io.ReadFull] hands back an error only with a short count, a short
    count ends the loop before the test of [readErr], and so neither
    call ever returns "failed to read input data" or "failed to read
    encrypted data", in any world. *)

Section ReadErrors.

Context {C : Crypto}.

Lemma bind_noReadError {A B : Type} (m : M A) (k : A -> M B) (s : World) :
  noReadError (fst (m s)) ->
  (forall a s', m s = (Ok a, s') -> noReadError (fst (k a s'))) ->
  noReadError (fst (bind m k s)).
Proof.
  intros Hm Hk. unfold bind.
  destruct (m s) as [[a | e | p |] s'] eqn:E; cbn [fst noReadError] in *;
    auto.
Qed.

Lemma check_noReadError (format : string) (err : option ioError) (s : World) :
  format <> "failed to read input data: %w"%string ->
  format <> "failed to read encrypted data: %w"%string ->
  noReadError (fst (check format err s)).
Proof.
  intros H1 H2. destruct err as [io |]; cbn; [| exact I].
  intros (io' & [E | E]); injection E as E _; contradiction.
Qed.

Ltac clean_step :=
  match goal with
  | |- noReadError (fst (bind _ _ _)) => apply bind_noReadError; [| intros]
  | |- noReadError (fst (lift (ofOption _ ?o) _)) => destruct o; exact I
  | |- noReadError (fst (ret _ _)) => exact I
  | |- noReadError (fst (check _ _ _)) =>
      apply check_noReadError; discriminate
  | |- noReadError (fst (write _ _)) =>
      unfold write; destruct (Write _ _); exact I
  | |- noReadError (fst (readFull _ _)) =>
      unfold readFull; destruct (ReadFull _ _); exact I
  | |- noReadError (fst (randReadFull _ _)) =>
      unfold randReadFull; destruct (ReadFull _ _); exact I
  | |- noReadError (fst ((if ?c then _ else _) _)) => destruct c
  | |- noReadError (fst (match ?x with (_, _) => _ end _)) => destruct x
  end.

Lemma CryptBlocks_noReadError (mode : BlockMode) (data : list byte) (s : World) :
  noReadError (fst (lift (CryptBlocks mode data) s)).
Proof. unfold lift, CryptBlocks. destruct (_ =? 0); exact I. Qed.

Lemma removePKCS7Padding_noReadError (data : list byte) (n : Z) (s : World) :
  noReadError (fst (lift (removePKCS7Padding data n) s)).
Proof.
  unfold lift, removePKCS7Padding.
  destruct (n =? 0); [exact I |].
  destruct (index data (n - 1)); [| exact I].
  destruct (_ || _); [exact I |].
  destruct (slice data 0 _); exact I.
Qed.

Lemma deriveKeyAndIV_noReadError (password salt : list byte) (s : World) :
  noReadError (fst (lift (deriveKeyAndIV password salt) s)).
Proof.
  unfold lift, deriveKeyAndIV.
  destruct (slice _ 0 _); [| exact I].
  destruct (slice _ ivOffset _); exact I.
Qed.

Lemma NewCBC_noReadError (d : direction) (b : Block) (iv : list byte) (s : World) :
  noReadError (fst (lift (NewCBC d b iv) s)).
Proof. unfold lift, NewCBC. destruct (_ =? _); exact I. Qed.

Lemma writeEncryptedBlock_noReadError (cbc : BlockMode) (data : list byte)
    (s : World) :
  noReadError (fst (writeEncryptedBlock cbc data s)).
Proof.
  unfold writeEncryptedBlock.
  repeat (clean_step || apply CryptBlocks_noReadError).
Qed.

Lemma processFinalBlock_noReadError (cbc : BlockMode) (data : list byte) (n : Z)
    (hasWrittenData : bool) (s : World) :
  noReadError (fst (processFinalBlock cbc data n hasWrittenData s)).
Proof.
  unfold processFinalBlock.
  repeat (clean_step || apply writeEncryptedBlock_noReadError).
Qed.

Lemma processDecryptionBlock_noReadError (mode : BlockMode) (buf : list byte)
    (n : Z) (isLastBlock : bool) (prev : list byte) (s : World) :
  noReadError (fst (processDecryptionBlock mode buf n isLastBlock prev s)).
Proof.
  unfold processDecryptionBlock.
  repeat (clean_step || apply CryptBlocks_noReadError
          || apply removePKCS7Padding_noReadError).
Qed.

Lemma handleEndOfFile_noReadError (prev : list byte) (s : World) :
  noReadError (fst (handleEndOfFile prev s)).
Proof.
  unfold handleEndOfFile.
  repeat (clean_step || apply removePKCS7Padding_noReadError).
Qed.

Lemma EncryptStream_loop_noReadError (fuel : nat) :
  forall (cbc : BlockMode) (hasWrittenData : bool) (s : World),
  noReadError (fst (EncryptStream_loop fuel cbc hasWrittenData s)).
Proof.
  induction fuel as [|fuel IH]; intros cbc hw s; [exact I |].
  cbn [EncryptStream_loop].
  apply bind_noReadError; [clean_step | intros [buf err] s1 Hread].
  destruct (readFull_inv _ _ _ _ _ (Z.lt_le_incl _ _ bufferSize_pos) Hread)
    as [(-> & Hlen & _) | (_ & Hlen)].
  - rewrite Hlen, Z.ltb_irrefl. cbn [isEOFish orb negb].
    apply bind_noReadError; [clean_step | intros chunk s2 _].
    apply bind_noReadError;
      [apply writeEncryptedBlock_noReadError | intros cbc' s3 _].
    apply bind_noReadError; [exact I | intros [] s4 _].
    apply IH.
  - apply Z.ltb_lt in Hlen. rewrite Hlen. cbn [orb].
    apply processFinalBlock_noReadError.
Qed.

Lemma DecryptStream_loop_noReadError (fuel : nat) :
  forall (mode : BlockMode) (prev : list byte) (s : World),
  noReadError (fst (DecryptStream_loop fuel mode prev s)).
Proof.
  induction fuel as [|fuel IH]; intros mode prev s; [exact I |].
  cbn [DecryptStream_loop].
  apply bind_noReadError; [clean_step | intros [buf err] s1 Hread].
  destruct (Z.eqb_spec (len buf) 0) as [E0 | E0];
    [apply handleEndOfFile_noReadError |].
  destruct (readFull_inv _ _ _ _ _ (Z.lt_le_incl _ _ bufferSize_pos) Hread)
    as [(-> & Hlen & _) | (_ & Hlen)].
  - rewrite Hlen, Z.ltb_irrefl. cbn [isEOFish orb negb].
    apply bind_noReadError;
      [apply processDecryptionBlock_noReadError | intros [next mode'] s2 _].
    apply bind_noReadError; [exact I | intros [] s3 _].
    apply IH.
  - apply Z.ltb_lt in Hlen. rewrite Hlen. cbn [orb].
    apply bind_noReadError;
      [apply processDecryptionBlock_noReadError | intros [next mode'] s2 _].
    exact I.
Qed.

Lemma EncryptStream_noReadError (password : list byte) (s : World) :
  noReadError (fst (EncryptStream password s)).
Proof.
  unfold EncryptStream, writeEncryptedHeader, setupEncryption.
  repeat (clean_step || apply deriveKeyAndIV_noReadError).
  - destruct (aes_NewCipher _) as [e | b]; [| apply NewCBC_noReadError].
    cbn. intros (io & [E | E]); discriminate E.
  - apply EncryptStream_loop_noReadError.
Qed.

Lemma DecryptStream_noReadError (password : list byte) (s : World) :
  noReadError (fst (DecryptStream password s)).
Proof.
  unfold DecryptStream, readAndValidateHeader.
  repeat (clean_step || apply deriveKeyAndIV_noReadError).
  - cbn. intros (io & [E | E]); discriminate E.
  - destruct (aes_NewCipher _) as [e | b].
    + cbn. intros (io & [E | E]); discriminate E.
    + apply bind_noReadError; [apply NewCBC_noReadError | intros mode s1 _].
      apply DecryptStream_loop_noReadError.
Qed.

End ReadErrors.

(** ** Writers that accept a bounded number of writes *)

Section Budget.

Context {C : Crypto} {L : CryptoLaws C}.

Lemma div_step (B n : Z) : 0 < B -> (B + n) / B = 1 + n / B.
Proof.
  intros H. replace (B + n) with (1 * B + n) by lia.
  apply Z.div_add_l. lia.
Qed.

Lemma ceil_step (B n : Z) : 0 < B -> (B + n + B - 1) / B = 1 + (n + B - 1) / B.
Proof.
  intros H. replace (B + n + B - 1) with (1 * B + (n + B - 1)) by lia.
  apply Z.div_add_l. lia.
Qed.

Lemma ceil_small (B n : Z) : 0 < n < B -> (n + B - 1) / B = 1.
Proof.
  intros H. replace (n + B - 1) with (1 * B + (n - 1)) by lia.
  rewrite Z.div_add_l by lia. rewrite Z.div_small by lia. reflexivity.
Qed.

Lemma ceil_zero (B : Z) : 0 < B -> (0 + B - 1) / B = 0.
Proof. intros H. apply Z.div_small. lia. Qed.

Lemma write_budget_S (p : list byte) (r : Reader) (out : list byte) (k : nat)
    (g : Reader) :
  write p (mkWorld r (mkWriter out (Some (S k))) g) =
  (Ok None, mkWorld r (mkWriter (out ++ p) (Some k)) g).
Proof. reflexivity. Qed.

Lemma write_budget_O (p : list byte) (r : Reader) (out : list byte) (g : Reader) :
  write p (mkWorld r (mkWriter out (Some O)) g) =
  (Ok (Some ErrClosedPipe), mkWorld r (mkWriter out (Some O)) g).
Proof. reflexivity. Qed.

Lemma writeEncryptedBlock_budget_S (cbc : BlockMode) (data : list byte)
    (r : Reader) (out : list byte) (k : nat) (g : Reader) :
  len data mod aes_BlockSize = 0 ->
  writeEncryptedBlock cbc data (mkWorld r (mkWriter out (Some (S k))) g) =
  (Ok (snd (chain cbc data)),
   mkWorld r (mkWriter (out ++ fst (chain cbc data)) (Some k)) g).
Proof.
  intros H. unfold writeEncryptedBlock, CryptBlocks.
  rewrite H. cbn [Z.eqb]. unfold bind at 1. unfold lift.
  destruct (chain cbc data) as [encBlock cbc'].
  unfold bind at 1. rewrite write_budget_S. reflexivity.
Qed.

Lemma writeEncryptedBlock_budget_O (cbc : BlockMode) (data : list byte)
    (r : Reader) (out : list byte) (g : Reader) :
  len data mod aes_BlockSize = 0 ->
  writeEncryptedBlock cbc data (mkWorld r (mkWriter out (Some O)) g) =
  (Err errWriteEncryptedBlock, mkWorld r (mkWriter out (Some O)) g).
Proof.
  intros H. unfold writeEncryptedBlock, CryptBlocks.
  rewrite H. cbn [Z.eqb]. unfold bind at 1. unfold lift.
  destruct (chain cbc data) as [encBlock cbc'].
  unfold bind at 1. rewrite write_budget_O. reflexivity.
Qed.

Lemma processFinalBlock_padded (cbc : BlockMode) (data : list byte)
    (hasWrittenData : bool) (s : World) :
  processFinalBlock cbc data (len data) hasWrittenData s =
  bind (writeEncryptedBlock cbc (applyPKCS7Padding data)) (fun _ => ret tt) s.
Proof.
  unfold processFinalBlock.
  destruct (Z.eqb_spec (len data) 0) as [E | E].
  - apply len_zero_nil in E. subst data.
    destruct hasWrittenData; reflexivity.
  - unfold bind at 1. rewrite slice_all. reflexivity.
Qed.

(** The encoder's loop on a writer that lets [k] more writes through:
    it needs one write per full buffer and one for the last chunk. *)
Lemma EncryptStream_loop_budget_ok (fuel : nat) :
  forall (data : list byte) (e : ioError) (out : list byte) (g : Reader)
         (cbc : BlockMode) (hasWrittenData : bool) (k : nat),
  (length data < fuel)%nat ->
  len data / bufferSize + 1 <= Z.of_nat k ->
  EncryptStream_loop fuel cbc hasWrittenData
    (mkWorld (mkReader data e) (mkWriter out (Some k)) g) =
  (Ok tt,
   mkWorld (mkReader [] e)
     (mkWriter (out ++ fst (chain cbc (applyPKCS7Padding data)))
        (Some (k - Z.to_nat (len data / bufferSize + 1))%nat)) g).
Proof.
  induction fuel as [|fuel IH]; intros data e out g cbc hw k Hfuel Hk; [lia |].
  cbn [EncryptStream_loop]. unfold bind at 1.
  pose proof bufferSize_pos as Hpos.
  destruct (Z.le_gt_cases bufferSize (len data)) as [Hfull | Hshort].
  - destruct (readFull_full data e (mkWriter out (Some k)) g Hfull)
      as (chunk & rest & Hdata & Hchunk & Hread).
    rewrite Hread.
    assert (Ha : len chunk mod aes_BlockSize = 0)
      by (rewrite Hchunk; apply bufferSize_aligned).
    assert (Hdiv : len data / bufferSize = 1 + len rest / bufferSize).
    { rewrite Hdata, len_app, Hchunk. apply div_step. exact Hpos. }
    assert (Hq : 0 <= len rest / bufferSize).
    { apply Z.div_pos; [apply len_nonneg | exact Hpos]. }
    assert (Hfuel' : (length rest < fuel)%nat).
    { subst data. rewrite length_app in Hfuel. clear IH Hread Hdiv Hq Hk. buf_lia. }
    replace (len chunk <? bufferSize) with false
      by (symmetry; rewrite Hchunk; apply Z.ltb_irrefl).
    cbn [isEOFish orb negb].
    unfold bind at 1. rewrite slice_all. cbn [lift ofOption].
    destruct k as [|k]; [clear IH; rewrite Hdiv in Hk; lia |].
    unfold bind at 1. rewrite writeEncryptedBlock_budget_S by exact Ha.
    unfold bind at 1. cbn [check ret].
    pose proof (IH rest e (out ++ fst (chain cbc chunk)) g
                  (snd (chain cbc chunk)) true k Hfuel') as IH1.
    rewrite Hdiv in *. clear IH Hread Hfull Hdiv.
    set (q := len rest / bufferSize) in *. clearbody q.
    rewrite IH1 by lia.
    rewrite Hdata.
    rewrite applyPKCS7Padding_app, chain_app by exact Ha.
    cbn [fst]. rewrite app_assoc.
    replace (S k - Z.to_nat (1 + q + 1))%nat with (k - Z.to_nat (q + 1))%nat
      by lia.
    reflexivity.
  - rewrite readFull_short by exact Hshort.
    assert (Hdiv : len data / bufferSize = 0)
      by (apply Z.div_small; split; [apply len_nonneg | exact Hshort]).
    rewrite Hdiv in *.
    apply Z.ltb_lt in Hshort. rewrite Hshort. cbn [orb].
    rewrite processFinalBlock_padded.
    destruct k as [|k]; [lia |].
    unfold bind at 1.
    rewrite writeEncryptedBlock_budget_S by apply applyPKCS7Padding_aligned.
    cbn [ret].
    replace (S k - Z.to_nat (0 + 1))%nat with k by lia.
    reflexivity.
Qed.

Lemma firstn_chunks (k : nat) (B : nat) (chunk rest : list byte) :
  length chunk = B ->
  firstn (S k * B) (chunk ++ rest) = chunk ++ firstn (k * B) rest.
Proof.
  intros H. rewrite firstn_app.
  rewrite firstn_all2 by (rewrite H; cbn [Nat.mul]; lia).
  f_equal. f_equal. rewrite H. cbn [Nat.mul]. lia.
Qed.

(** When the writer gives out, what it has taken is the ciphertext of
    the full buffers it let through. *)
Lemma EncryptStream_loop_budget_short (fuel : nat) :
  forall (data : list byte) (e : ioError) (out : list byte) (g : Reader)
         (cbc : BlockMode) (hasWrittenData : bool) (k : nat),
  (length data < fuel)%nat ->
  Z.of_nat k < len data / bufferSize + 1 ->
  exists s' : World,
    EncryptStream_loop fuel cbc hasWrittenData
      (mkWorld (mkReader data e) (mkWriter out (Some k)) g) =
    (Err errWriteEncryptedBlock, s') /\
    w_out (dst s') =
    out ++ fst (chain cbc (firstn (k * Z.to_nat bufferSize) data)).
Proof.
  induction fuel as [|fuel IH]; intros data e out g cbc hw k Hfuel Hk; [lia |].
  cbn [EncryptStream_loop]. unfold bind at 1.
  pose proof bufferSize_pos as Hpos.
  destruct (Z.le_gt_cases bufferSize (len data)) as [Hfull | Hshort].
  - destruct (readFull_full data e (mkWriter out (Some k)) g Hfull)
      as (chunk & rest & Hdata & Hchunk & Hread).
    rewrite Hread.
    assert (Ha : len chunk mod aes_BlockSize = 0)
      by (rewrite Hchunk; apply bufferSize_aligned).
    assert (Hdiv : len data / bufferSize = 1 + len rest / bufferSize).
    { rewrite Hdata, len_app, Hchunk. apply div_step. exact Hpos. }
    assert (Hfuel' : (length rest < fuel)%nat).
    { subst data. rewrite length_app in Hfuel. clear IH Hread Hdiv Hk. buf_lia. }
    replace (len chunk <? bufferSize) with false
      by (symmetry; rewrite Hchunk; apply Z.ltb_irrefl).
    cbn [isEOFish orb negb].
    unfold bind at 1. rewrite slice_all. cbn [lift ofOption].
    destruct k as [|k].
    + unfold bind at 1. rewrite writeEncryptedBlock_budget_O by exact Ha.
      eexists. split; [reflexivity |].
      cbn [dst w_out Nat.mul firstn]. rewrite chain_nil, app_nil_r. reflexivity.
    + unfold bind at 1. rewrite writeEncryptedBlock_budget_S by exact Ha.
      unfold bind at 1. cbn [check ret].
      destruct (IH rest e (out ++ fst (chain cbc chunk)) g
                  (snd (chain cbc chunk)) true k Hfuel') as (s' & E & Hout).
      { rewrite Hdiv in Hk. clear IH Hread Hfull Hdiv.
        set (q := len rest / bufferSize) in *. clearbody q. lia. }
      exists s'. split; [exact E |].
      rewrite Hout, Hdata.
      rewrite firstn_chunks
        by (clear IH Hread E Hout Hdiv Hk Hfull; unfold len in Hchunk; lia).
      rewrite chain_app by exact Ha. cbn [fst].
      rewrite app_assoc. reflexivity.
  - rewrite readFull_short by exact Hshort.
    assert (Hdiv : len data / bufferSize = 0)
      by (apply Z.div_small; split; [apply len_nonneg | exact Hshort]).
    rewrite Hdiv in *.
    apply Z.ltb_lt in Hshort. rewrite Hshort. cbn [orb].
    rewrite processFinalBlock_padded.
    destruct k as [|k]; [| lia].
    unfold bind at 1.
    rewrite writeEncryptedBlock_budget_O by apply applyPKCS7Padding_aligned.
    eexists. split; [reflexivity |].
    cbn [dst w_out Nat.mul firstn]. rewrite chain_nil, app_nil_r. reflexivity.
Qed.

Lemma writeEncryptedHeader_budget (salt more : list byte) (e' : ioError)
    (r : Reader) (out : list byte) (k : nat) :
  len salt = saltSize ->
  writeEncryptedHeader
    (mkWorld r (mkWriter out (Some k)) (mkReader (salt ++ more) e')) =
  match k with
  | O => (Err errWriteHeader,
          mkWorld r (mkWriter out (Some O)) (mkReader more e'))
  | S O => (Err errWriteSalt,
            mkWorld r (mkWriter (out ++ magicBytes) (Some O)) (mkReader more e'))
  | S (S k') => (Ok salt,
                 mkWorld r (mkWriter ((out ++ magicBytes) ++ salt) (Some k'))
                   (mkReader more e'))
  end.
Proof.
  intros Hs. unfold writeEncryptedHeader.
  unfold bind at 1. rewrite randReadFull_prefix by exact Hs.
  unfold bind at 1. cbn [check ret].
  destruct k as [|[|k']]; reflexivity.
Qed.

(** X6.  [EncryptStream] on a writer that lets exactly [k] writes
    through, with a salt at hand: the call makes 3 + len P / bufferSize
    writes (tag, salt, one per full buffer, the padded last chunk) and
    returns nil when the writer takes them all.  Otherwise it returns
    the error of the write that was refused, and the writer holds a
    prefix of the container: nothing, the tag, or the header and the
    ciphertext of the full buffers written so far. *)
Theorem EncryptStream_write_budget (password P salt more out : list byte)
    (e e' : ioError) (k : nat) :
  len salt = saltSize ->
  outcome (EncryptStream password
             (mkWorld (mkReader P e) (mkWriter out (Some k))
                (mkReader (salt ++ more) e'))) =
  match k with
  | O => (Err errWriteHeader, out)
  | S O => (Err errWriteSalt, out ++ magicBytes)
  | S (S k') =>
      if encoderWrites P <=? Z.of_nat k then
        (Ok tt,
         out ++ magicBytes ++ salt
           ++ fst (chain (sessionMode Encrypter password salt)
                     (applyPKCS7Padding P)))
      else
        (Err errWriteEncryptedBlock,
         out ++ magicBytes ++ salt
           ++ fst (chain (sessionMode Encrypter password salt)
                     (firstn (k' * Z.to_nat bufferSize) P)))
  end.
Proof.
  intros Hs. unfold EncryptStream.
  unfold bind at 1.
  rewrite writeEncryptedHeader_budget by exact Hs.
  destruct k as [|[|k']]; [reflexivity | reflexivity |].
  unfold bind at 1. rewrite setupEncryption_ok.
  unfold loopFuel. cbn [src r_data].
  unfold encoderWrites.
  destruct (Z.leb_spec (3 + len P / bufferSize) (Z.of_nat (S (S k'))))
    as [Hk | Hk].
  - rewrite EncryptStream_loop_budget_ok by lia.
    unfold outcome. cbn [fst snd dst w_out]. rewrite <- !app_assoc. reflexivity.
  - destruct (EncryptStream_loop_budget_short (S (length P)) P e
                ((out ++ magicBytes) ++ salt) (mkReader more e')
                (sessionMode Encrypter password salt) false k')
      as (s' & E & Hout); [lia | lia |].
    rewrite E. unfold outcome. cbn [fst snd]. rewrite Hout, <- !app_assoc.
    reflexivity.
Qed.

Ltac decide_cmp :=
  repeat match goal with
         | |- context [?a <=? ?b] => destruct (Z.leb_spec a b); try lia
         | |- context [?a =? ?b] => destruct (Z.eqb_spec a b); try lia
         end;
  try reflexivity.

(** One turn of the decoder on a writer that lets [k] more writes
    through. *)
Lemma processDecryptionBlock_budget (mode : BlockMode) (chunk : list byte)
    (isLastBlock : bool) (prev : list byte) (r : Reader) (out : list byte)
    (k : nat) (g : Reader) :
  modeOK mode -> len chunk mod aes_BlockSize = 0 ->
  processDecryptionBlock mode chunk (len chunk) isLastBlock prev
    (mkWorld r (mkWriter out (Some k)) g) =
  let cur := fst (chain mode chunk) in
  let mode' := snd (chain mode chunk) in
  let world o n := mkWorld r (mkWriter o (Some n)) g in
  let finish o n :=
    if isLastBlock then
      match n with
      | O => (Err errWriteFinalBlock, world o O)
      | S n' => (Ok ([], mode'), world (o ++ stripped cur) n')
      end
    else (Ok (cur, mode'), world o n) in
  if len prev >? 0 then
    match k with
    | O => (Err errWriteDecryptedBlock, world out O)
    | S k' => finish (out ++ prev) k'
    end
  else finish out k.
Proof.
  intros Hm Ha. cbv zeta. unfold processDecryptionBlock.
  unfold bind at 1. rewrite slice_all. cbn [lift ofOption].
  unfold bind at 1. rewrite CryptBlocks_aligned by exact Ha. cbn [lift].
  destruct (chain_len mode chunk Hm Ha) as [Hlen _].
  destruct (chain mode chunk) as [cur mode']. cbn [fst snd] in *.
  unfold bind at 1.
  destruct (len prev >? 0).
  - destruct k as [|k']; [reflexivity |].
    unfold bind at 1. rewrite write_budget_S. cbn [check ret].
    destruct isLastBlock; [| reflexivity].
    rewrite <- Hlen, removePKCS7Padding_ok.
    unfold bind at 1. cbn [lift].
    destruct k' as [|n']; reflexivity.
  - cbn [ret]. destruct isLastBlock; [| reflexivity].
    rewrite <- Hlen, removePKCS7Padding_ok.
    unfold bind at 1. cbn [lift].
    destruct k as [|n']; reflexivity.
Qed.

Lemma handleEndOfFile_budget (prev : list byte) (r : Reader) (out : list byte)
    (k : nat) (g : Reader) :
  fst (handleEndOfFile prev (mkWorld r (mkWriter out (Some k)) g)) =
  if len prev >? 0 then
    match k with
    | O => Err errWriteFinalBlock
    | S _ => Ok tt
    end
  else Ok tt.
Proof.
  unfold handleEndOfFile.
  destruct (len prev >? 0); [| reflexivity].
  rewrite removePKCS7Padding_ok. unfold bind at 1. cbn [lift].
  destruct k; reflexivity.
Qed.

(** The decoder's loop on whole blocks and a writer that lets [k] more
    writes through: it writes once for the pending chunk, if there is
    one, and once per buffer still to come; the last of these writes is
    the final block. *)
Lemma DecryptStream_loop_budget (fuel : nat) :
  forall (data : list byte) (e : ioError) (out : list byte) (g : Reader)
         (mode : BlockMode) (prev : list byte) (k : nat),
  (length data < fuel)%nat -> modeOK mode ->
  len data mod aes_BlockSize = 0 ->
  fst (DecryptStream_loop fuel mode prev
         (mkWorld (mkReader data e) (mkWriter out (Some k)) g)) =
  let N := (if len prev >? 0 then 1 else 0)
           + (len data + bufferSize - 1) / bufferSize in
  if N <=? Z.of_nat k then Ok tt
  else if Z.of_nat k + 1 =? N then Err errWriteFinalBlock
  else Err errWriteDecryptedBlock.
Proof.
  induction fuel as [|fuel IH]; intros data e out g mode prev k Hfuel Hm Ha;
    [lia |].
  cbn [DecryptStream_loop]. unfold bind at 1. cbv zeta.
  pose proof bufferSize_pos as Hpos.
  destruct (Z.le_gt_cases bufferSize (len data)) as [Hfull | Hshort].
  - destruct (readFull_full data e (mkWriter out (Some k)) g Hfull)
      as (chunk & rest & Hdata & Hchunk & Hread).
    rewrite Hread.
    assert (Hca : len chunk mod aes_BlockSize = 0)
      by (rewrite Hchunk; apply bufferSize_aligned).
    assert (Hra : len rest mod aes_BlockSize = 0)
      by (rewrite <- (aligned_app_inv chunk rest Hca), <- Hdata; exact Ha).
    assert (Hceil : (len data + bufferSize - 1) / bufferSize =
                    1 + (len rest + bufferSize - 1) / bufferSize).
    { rewrite Hdata, len_app, Hchunk. apply ceil_step. exact Hpos. }
    assert (Hq : 0 <= (len rest + bufferSize - 1) / bufferSize).
    { apply Z.div_pos; [| exact Hpos].
      pose proof (len_nonneg rest). clear IH Hread Hceil. buf_lia. }
    assert (Hfuel' : (length rest < fuel)%nat).
    { subst data. rewrite length_app in Hfuel. clear IH Hread Hceil Hq. buf_lia. }
    destruct (chain_len mode chunk Hm Hca) as [Hlen Hm'].
    assert (Hcur : (len (fst (chain mode chunk)) >? 0) = true).
    { rewrite Hlen, Hchunk. reflexivity. }
    replace (len chunk =? 0) with false
      by (symmetry; apply Z.eqb_neq; rewrite Hchunk; discriminate).
    replace (len chunk <? bufferSize) with false
      by (symmetry; rewrite Hchunk; apply Z.ltb_irrefl).
    cbn [isEOFish orb negb].
    unfold bind at 1.
    rewrite processDecryptionBlock_budget by assumption. cbv zeta.
    rewrite Hceil. clear Hceil Hread Hfull.
    destruct (len prev >? 0).
    + destruct k as [|k'].
      * cbn [fst].
        set (q := (len rest + bufferSize - 1) / bufferSize) in *. clearbody q.
        decide_cmp.
      * unfold bind at 1. cbn [check ret].
        rewrite (IH rest e (out ++ prev) g _ _ k' Hfuel' Hm' Hra).
        cbv zeta. rewrite Hcur. clear IH.
        set (q := (len rest + bufferSize - 1) / bufferSize) in *. clearbody q.
        decide_cmp.
    + unfold bind at 1. cbn [check ret].
      rewrite (IH rest e out g _ _ k Hfuel' Hm' Hra).
      cbv zeta. rewrite Hcur. clear IH.
      set (q := (len rest + bufferSize - 1) / bufferSize) in *. clearbody q.
      replace (0 + (1 + q)) with (1 + q) by lia. reflexivity.
  - rewrite readFull_short by exact Hshort.
    destruct (Z.eqb_spec (len data) 0) as [E | E].
    + rewrite handleEndOfFile_budget.
      rewrite E, (ceil_zero bufferSize Hpos).
      destruct (len prev >? 0); destruct k; cbn [fst]; decide_cmp.
    + assert (Hceil : (len data + bufferSize - 1) / bufferSize = 1).
      { apply ceil_small. pose proof (len_nonneg data). lia. }
      rewrite Hceil.
      apply Z.ltb_lt in Hshort. rewrite Hshort. cbn [orb].
      unfold bind at 1.
      rewrite processDecryptionBlock_budget by assumption. cbv zeta.
      destruct (len prev >? 0).
      * destruct k as [|[|k']]; cbn [fst]; decide_cmp.
      * destruct k as [|k']; cbn [fst]; decide_cmp.
Qed.

(** X7.  [DecryptStream] on a valid header, a body of whole blocks and
    a writer that lets exactly [k] writes through: the call writes once
    per buffer of the body, full or not, and returns nil when the
    writer takes them all; it returns "failed to write final block"
    when only the last write is refused and "failed to write decrypted
    block" when an earlier one is. *)
Theorem DecryptStream_write_budget (password salt body out : list byte)
    (e : ioError) (k : nat) (g : Reader) :
  len salt = saltSize -> len body mod aes_BlockSize = 0 ->
  fst (DecryptStream password
         (mkWorld (mkReader (magicBytes ++ salt ++ body) e)
            (mkWriter out (Some k)) g)) =
  if decoderWrites body <=? Z.of_nat k then Ok tt
  else if Z.of_nat k + 1 =? decoderWrites body then Err errWriteFinalBlock
  else Err errWriteDecryptedBlock.
Proof.
  intros Hs Ha. rewrite DecryptStream_valid_header by exact Hs.
  rewrite DecryptStream_loop_budget;
    [| lia | apply sessionMode_ok | exact Ha].
  reflexivity.
Qed.

End Budget.

(** ** Further properties of the codec *)

Section Further.

Context {C : Crypto} {L : CryptoLaws C}.

Lemma stripped_prefix (x : list byte) :
  exists tail : list byte, x = stripped x ++ tail /\ len tail <= 16.
Proof.
  destruct (stripped_cases x) as [E | (p & Hp & Hle & E)].
  - exists []. rewrite E, app_nil_r. split; [reflexivity | discriminate].
  - exists (skipn (Z.to_nat (len x - p)) x). rewrite E.
    split; [symmetry; apply firstn_skipn |].
    rewrite len_skipn by lia. lia.
Qed.

(** X1.  On a writer that does not fail, whatever error the reader ends
    with: [EncryptStream] returns nil, has read the reader to its end
    and taken eight bytes from [rand.Reader], and has written the tag,
    the salt and then exactly what one [CryptBlocks] call of the
    session's encrypter gives on the whole padded plaintext.  The
    split into 1 MiB buffers leaves no trace in the container. *)
Theorem EncryptStream_container (password P out salt more : list byte)
    (e e' : ioError) :
  len salt = saltSize ->
  exists (body : list byte) (cbc' : BlockMode),
    CryptBlocks (sessionMode Encrypter password salt) (applyPKCS7Padding P) =
      Ok (body, cbc') /\
    EncryptStream password
      (mkWorld (mkReader P e) (mkWriter out None) (mkReader (salt ++ more) e')) =
    (Ok tt,
     mkWorld (mkReader [] e) (mkWriter (out ++ magicBytes ++ salt ++ body) None)
       (mkReader more e')).
Proof.
  intros Hs.
  exists (fst (chain (sessionMode Encrypter password salt) (applyPKCS7Padding P))),
         (snd (chain (sessionMode Encrypter password salt) (applyPKCS7Padding P))).
  split.
  - rewrite CryptBlocks_aligned by apply applyPKCS7Padding_aligned.
    destruct (chain _ _); reflexivity.
  - rewrite EncryptStream_healthy by exact Hs.
    rewrite <- !app_assoc. reflexivity.
Qed.

(** X2.  The decoder has no padding error.  On a valid header, a body
    of whole blocks and a writer that does not fail, [DecryptStream]
    returns nil whatever the bytes are; it writes what one
    [CryptBlocks] call of the session's decrypter gives on the whole
    body, less a tail of at most 16 bytes. *)
Theorem DecryptStream_lenient (password salt body out : list byte)
    (e : ioError) (g : Reader) :
  len salt = saltSize -> len body mod aes_BlockSize = 0 ->
  exists (plain tail : list byte) (mode' : BlockMode),
    CryptBlocks (sessionMode Decrypter password salt) body = Ok (plain, mode') /\
    len plain = len body /\
    plain = stripped plain ++ tail /\ len tail <= 16 /\
    DecryptStream password
      (mkWorld (mkReader (magicBytes ++ salt ++ body) e) (mkWriter out None) g) =
    (Ok tt,
     mkWorld (mkReader [] e) (mkWriter (out ++ stripped plain) None) g).
Proof.
  intros Hs Ha.
  destruct (sessionMode_ok Decrypter password salt) as (Hm & _ & _).
  destruct (chain_len _ body Hm Ha) as [Hlen _].
  destruct (stripped_prefix (fst (chain (sessionMode Decrypter password salt) body)))
    as (tail & Htail & Hle).
  exists (fst (chain (sessionMode Decrypter password salt) body)), tail,
         (snd (chain (sessionMode Decrypter password salt) body)).
  split.
  - rewrite CryptBlocks_aligned by exact Ha. destruct (chain _ _); reflexivity.
  - split; [exact Hlen |]. split; [exact Htail |]. split; [exact Hle |].
    apply DecryptStream_healthy; assumption.
Qed.

(** X3.  A source that fails after delivering P is not told apart from
    a source that ends after P: [EncryptStream] returns nil and the
    container it has written decrypts, under the same password, to
    exactly P. *)
Theorem truncated_source_round_trip (password P : list byte) (e : ioError)
    (rand : Reader) :
  saltSize <= len (r_data rand) ->
  exists container : list byte,
    outcome (EncryptStream password (mkWorld (mkReader P e) bytes_Buffer rand)) =
      (Ok tt, container) /\
    decryptBytes password container = (Ok tt, P).
Proof.
  intros H. destruct rand as [rd re]. cbn [r_data] in H.
  destruct (split_at 8 rd) as (salt & more & -> & Hs);
    [pose proof (len_nonneg rd); unfold saltSize in H; lia |].
  unfold bytes_Buffer. rewrite EncryptStream_healthy by exact Hs.
  exists (magicBytes ++ salt
            ++ fst (chain (sessionMode Encrypter password salt)
                      (applyPKCS7Padding P))).
  split; [unfold outcome; cbn [fst snd dst w_out];
          rewrite <- app_assoc; reflexivity |].
  destruct (sessionMode_ok Encrypter password salt) as (Hm & _ & _).
  destruct (chain_len _ _ Hm (applyPKCS7Padding_aligned P)) as [Hlen _].
  unfold decryptBytes, bytes_NewReader, bytes_Buffer.
  rewrite DecryptStream_healthy;
    [| exact Hs | rewrite Hlen; apply applyPKCS7Padding_aligned].
  cbn [dst w_out app].
  rewrite (sessionMode_eq Decrypter), (sessionMode_eq Encrypter) in *.
  cbv zeta in *.
  rewrite chain_Decrypter_Encrypter;
    [| exact Hm | apply applyPKCS7Padding_aligned].
  rewrite stripped_pad. reflexivity.
Qed.

(** X4.  When [rand.Reader] cannot supply eight bytes, [EncryptStream]
    returns "error generating salt" around the error of the short
    read; nothing has been written and the source has not been
    read. *)
Theorem EncryptStream_salt_failure (password : list byte) (r : Reader)
    (w : Writer) (rand : Reader) :
  len (r_data rand) < saltSize ->
  EncryptStream password (mkWorld r w rand) =
  (Err (Wrap "error generating salt: %w"
          (IOErr (shortError (r_data rand) (r_err rand)))),
   mkWorld r w (mkReader [] (r_err rand))).
Proof.
  intros H. unfold EncryptStream, writeEncryptedHeader.
  unfold bind at 1. unfold bind at 1.
  unfold randReadFull, ReadFull. cbn [rnd src dst].
  apply Z.leb_gt in H. rewrite H. reflexivity.
Qed.

(** X5.  [setupEncryption] does not fail: for every password and salt
    the derived key has 32 bytes, which [aes.NewCipher] accepts, and
    the IV has 16, which [cipher.NewCBCEncrypter] accepts; the world is
    left as it was. *)
Theorem setupEncryption_never_fails (password salt : list byte) (s : World) :
  exists key iv : list byte,
    deriveKeyAndIV password salt = Ok (key, iv) /\
    len key = 32 /\ len iv = 16 /\
    aes_NewCipher key = inr (mkBlock key) /\
    NewCBCEncrypter (mkBlock key) iv =
      Ok (mkBlockMode (mkBlock key) Encrypter iv) /\
    setupEncryption password salt s =
      (Ok (mkBlockMode (mkBlock key) Encrypter iv), s).
Proof.
  destruct (deriveKeyAndIV_ok password salt) as (E & Hk & Hiv).
  cbv zeta in *.
  eexists. eexists. split; [exact E |].
  split; [exact Hk |]. split; [exact Hiv |].
  split; [apply aes_NewCipher_ok; exact Hk |].
  split; [apply NewCBC_ok; exact Hiv |].
  rewrite setupEncryption_ok, (sessionMode_eq Encrypter). reflexivity.
Qed.

Lemma index_in_range (data : list byte) (i : Z) :
  0 <= i < len data -> exists b : byte, index data i = Some b.
Proof.
  intros H. unfold index.
  replace (0 <=? i) with true by (symmetry; apply Z.leb_le; lia).
  destruct (nth_error data (Z.to_nat i)) as [b |] eqn:E; [eauto |].
  apply nth_error_None in E. unfold len in H. lia.
Qed.

Lemma index_out_of_range (data : list byte) (i : Z) :
  i < 0 \/ len data <= i -> index data i = None.
Proof.
  intros H. unfold index.
  destruct (Z.leb_spec 0 i) as [Hi | Hi]; [| reflexivity].
  apply nth_error_None. unfold len in H. lia.
Qed.

(** X8.  [removePKCS7Padding] for any count: it panics on an index out
    of range exactly when [bytesRead] is negative or exceeds
    [len(data)].  Otherwise it returns a prefix of [data]: either all
    of [data], or [data[:bytesRead-p]] with between [bytesRead - 16]
    and [bytesRead] bytes. *)
Theorem removePKCS7Padding_bounds (data : list byte) (bytesRead : Z) :
  if (0 <=? bytesRead) && (bytesRead <=? len data) then
    exists r tail : list byte,
      removePKCS7Padding data bytesRead = Ok r /\ data = r ++ tail /\
      (tail = [] \/ bytesRead - 16 <= len r <= bytesRead)
  else removePKCS7Padding data bytesRead = Panic IndexOutOfRange.
Proof.
  unfold removePKCS7Padding. pose proof (len_nonneg data) as Hlen.
  destruct (Z.leb_spec 0 bytesRead) as [H0 | H0];
    destruct (Z.leb_spec bytesRead (len data)) as [H1 | H1]; cbn [andb].
  - destruct (Z.eqb_spec bytesRead 0) as [E | E].
    + exists data, []. rewrite app_nil_r. auto.
    + destruct (index_in_range data (bytesRead - 1)) as [b Hb]; [lia |].
      rewrite Hb. pose proof (intOfByte_range b) as Hp.
      unfold aes_BlockSize.
      destruct (Z.gtb_spec (intOfByte b) bytesRead);
        destruct (Z.gtb_spec (intOfByte b) 16); cbn [orb];
        try (exists data, []; rewrite app_nil_r; auto; fail).
      rewrite slice_prefix by lia. cbn [ofOption].
      exists (firstn (Z.to_nat (bytesRead - intOfByte b)) data),
             (skipn (Z.to_nat (bytesRead - intOfByte b)) data).
      split; [reflexivity |]. split; [symmetry; apply firstn_skipn |].
      right. rewrite len_firstn by lia. lia.
  - replace (bytesRead =? 0) with false by (symmetry; apply Z.eqb_neq; lia).
    rewrite index_out_of_range by lia. reflexivity.
  - replace (bytesRead =? 0) with false by (symmetry; apply Z.eqb_neq; lia).
    rewrite index_out_of_range by lia. reflexivity.
  - replace (bytesRead =? 0) with false by (symmetry; apply Z.eqb_neq; lia).
    rewrite index_out_of_range by lia. reflexivity.
Qed.

(** X9.  Padding loses nothing: two byte sequences with the same padded
    form are the same sequence. *)
Theorem applyPKCS7Padding_injective (x y : list byte) :
  applyPKCS7Padding x = applyPKCS7Padding y -> x = y.
Proof.
  intros H. rewrite <- (stripped_pad x), <- (stripped_pad y), H. reflexivity.
Qed.

(** X10.  The flag [hasWrittenData] changes nothing: the two branches
    of [processFinalBlock] for a zero-byte last read write the same
    block, sixteen bytes of value 16, so the loop of [EncryptStream]
    gives the same result and the same world whatever the flag. *)
Theorem hasWrittenData_irrelevant (fuel : nat) (cbc : BlockMode)
    (hasWrittenData : bool) (s : World) :
  EncryptStream_loop fuel cbc hasWrittenData s =
  EncryptStream_loop fuel cbc false s.
Proof.
  destruct fuel as [|fuel]; [reflexivity |].
  cbn [EncryptStream_loop]. unfold bind at 1. unfold bind at 4.
  destruct (readFull bufferSize s) as [[[buf err] | e | p |] s1];
    try reflexivity.
  destruct ((len buf <? bufferSize) || isEOFish err); [| reflexivity].
  rewrite !processFinalBlock_padded. reflexivity.
Qed.

(** X11.  The read-error exits of both loops are dead code: in no world
    does [EncryptStream] return "failed to read input data" or
    [DecryptStream] return "failed to read encrypted data". *)
Theorem read_error_exits_dead (password : list byte) (s : World) :
  noReadError (fst (EncryptStream password s)) /\
  noReadError (fst (DecryptStream password s)).
Proof.
  split; [apply EncryptStream_noReadError | apply DecryptStream_noReadError].
Qed.


(** X13.  When the truncated body is shorter than one buffer the panic
    comes before any write: the writer is left as it was, whatever
    writer it is. *)
Theorem DecryptStream_short_truncated_body (password salt body : list byte)
    (e : ioError) (w : Writer) (g : Reader) :
  len salt = saltSize -> len body mod aes_BlockSize <> 0 ->
  len body < bufferSize ->
  DecryptStream password
    (mkWorld (mkReader (magicBytes ++ salt ++ body) e) w g) =
  (Panic InputNotFullBlocks, mkWorld (mkReader [] e) w g).
Proof.
  intros Hs Ha Hshort. rewrite DecryptStream_valid_header by exact Hs.
  cbn [DecryptStream_loop]. unfold bind at 1.
  rewrite readFull_short by exact Hshort.
  assert (E : len body <> 0) by (intros E; rewrite E in Ha; apply Ha; reflexivity).
  apply Z.eqb_neq in E. rewrite E.
  unfold bind at 1. unfold processDecryptionBlock.
  unfold bind at 1. rewrite slice_all. cbn [lift ofOption].
  unfold bind at 1. rewrite CryptBlocks_unaligned by exact Ha.
  reflexivity.
Qed.


End Further.

(** ** Every way the two calls can end *)

Section Outcomes.

Context {C : Crypto} {L : CryptoLaws C}.

Lemma bind_outcomeIn {A B : Type} (E : error -> Prop) (P : panic -> Prop)
    (m : M A) (k : A -> M B) (s : World) :
  outcomeIn E P (fst (m s)) ->
  (forall a s', m s = (Ok a, s') -> outcomeIn E P (fst (k a s'))) ->
  outcomeIn E P (fst (bind m k s)).
Proof.
  intros Hm Hk. unfold bind.
  destruct (m s) as [[a | e | p |] s'] eqn:Em; cbn [fst outcomeIn] in *; auto.
Qed.

Lemma outcomeIn_weaken {A : Type} (E E' : error -> Prop) (P P' : panic -> Prop)
    (r : Res A) :
  (forall e, E e -> E' e) -> (forall p, P p -> P' p) ->
  outcomeIn E P r -> outcomeIn E' P' r.
Proof. intros HE HP. destruct r; cbn; auto. Qed.

(** A read gives the whole buffer, or all that was left. *)
Lemma readFull_cases (n : Z) (s s' : World) (buf : list byte)
    (err : option ioError) :
  0 <= n ->
  readFull n s = (Ok (buf, err), s') ->
  dst s' = dst s /\
  ((err = None /\ len buf = n /\
    len (r_data (src s')) = len (r_data (src s)) - n) \/
   (err <> None /\ buf = r_data (src s) /\ len buf < n)).
Proof.
  intros Hn. unfold readFull, ReadFull.
  destruct (Z.leb_spec n (len (r_data (src s)))) as [H | H];
    intros E; injection E as <- <- <-; cbn [src dst r_data];
    (split; [reflexivity |]).
  - left. split; [reflexivity |].
    split; [apply len_firstn | apply len_skipn]; lia.
  - right. split; [discriminate |]. split; [reflexivity | exact H].
Qed.

Lemma writeEncryptedBlock_outcome (cbc : BlockMode) (data : list byte) (s : World) :
  len data mod aes_BlockSize = 0 ->
  outcomeIn (fun e => e = errWriteEncryptedBlock) (fun _ => False)
    (fst (writeEncryptedBlock cbc data s)).
Proof.
  intros Ha. unfold writeEncryptedBlock.
  unfold bind at 1. rewrite CryptBlocks_aligned by exact Ha. cbn [lift].
  destruct (chain cbc data) as [encBlock cbc'].
  unfold bind, write, Write.
  destruct (w_left (dst s)) as [[|k] |]; cbn; auto.
Qed.

Lemma encoderError_block (e : error) :
  e = errWriteEncryptedBlock -> encoderError e.
Proof. intros ->. right. right. right. reflexivity. Qed.

Lemma EncryptStream_loop_outcome (fuel : nat) :
  forall (cbc : BlockMode) (hasWrittenData : bool) (s : World),
  (length (r_data (src s)) < fuel)%nat ->
  outcomeIn encoderError (fun _ => False)
    (fst (EncryptStream_loop fuel cbc hasWrittenData s)).
Proof.
  induction fuel as [|fuel IH]; intros cbc hw s Hfuel; [lia |].
  cbn [EncryptStream_loop].
  apply bind_outcomeIn;
    [unfold readFull; destruct (ReadFull _ _); exact I
    | intros [buf err] s1 Hread].
  destruct (readFull_cases _ _ _ _ _ (Z.lt_le_incl _ _ bufferSize_pos) Hread)
    as (_ & [(-> & Hlen & Hsz) | (_ & _ & Hlen)]).
  - assert (Ha : len buf mod aes_BlockSize = 0)
      by (rewrite Hlen; apply bufferSize_aligned).
    replace (len buf <? bufferSize) with false
      by (symmetry; rewrite Hlen; apply Z.ltb_irrefl).
    cbn [isEOFish orb negb].
    apply bind_outcomeIn; [rewrite slice_all; exact I | intros chunk s2 E2].
    rewrite slice_all in E2. unfold lift, ofOption in E2.
    injection E2 as <- <-.
    apply bind_outcomeIn.
    + eapply outcomeIn_weaken;
        [apply encoderError_block | | apply writeEncryptedBlock_outcome; exact Ha].
      auto.
    + intros cbc' s3 E3.
      apply bind_outcomeIn; [exact I | intros [] s4 E4].
      apply IH.
      injection E4 as <-.
      pose proof (writeEncryptedBlock_src cbc buf s1) as Hs3.
      rewrite E3 in Hs3. cbn [snd] in Hs3. rewrite Hs3.
      pose proof bufferSize_pos. clear IH Hread E3. buf_lia.
  - apply Z.ltb_lt in Hlen. rewrite Hlen. cbn [orb].
    rewrite processFinalBlock_padded.
    apply bind_outcomeIn; [| intros; exact I].
    eapply outcomeIn_weaken;
      [apply encoderError_block | |
       apply writeEncryptedBlock_outcome; apply applyPKCS7Padding_aligned].
    auto.
Qed.

Lemma writeEncryptedHeader_outcome (s : World) :
  outcomeIn encoderError (fun _ => False) (fst (writeEncryptedHeader s)).
Proof.
  unfold writeEncryptedHeader.
  apply bind_outcomeIn;
    [unfold randReadFull; destruct (ReadFull _ _); exact I
    | intros [salt err] s1 _].
  apply bind_outcomeIn.
  { destruct err as [io |]; [left; eauto | exact I]. }
  intros [] s2 _.
  unfold bind at 1. unfold write at 1. unfold Write.
  destruct (w_left (dst s2)) as [[|k] |]; cbn [check fail fst outcomeIn].
  - right. left. reflexivity.
  - unfold bind, write, Write. cbn [dst w_left].
    destruct k; cbn; [right; right; left; reflexivity | exact I].
  - exact I.
Qed.

(** X14.  Every way [EncryptStream] can end, for any reader, writer and
    randomness: it returns nil or one of four errors, "error generating
    salt", "error writing header to file", "error writing salt to
    file" or "error writing encrypted block to file".  It does not
    panic, since every [CryptBlocks] input is a full buffer or a padded
    chunk; it does not return a cipher-setup error or a read error. *)
Theorem EncryptStream_outcomes (password : list byte) (s : World) :
  outcomeIn encoderError (fun _ => False) (fst (EncryptStream password s)).
Proof.
  unfold EncryptStream.
  apply bind_outcomeIn; [apply writeEncryptedHeader_outcome | intros salt s1 _].
  apply bind_outcomeIn; [rewrite setupEncryption_ok; exact I | intros cbc s2 _].
  apply EncryptStream_loop_outcome. unfold loopFuel. lia.
Qed.

Lemma decoderError_block : decoderError errWriteDecryptedBlock.
Proof. right. right. left. reflexivity. Qed.

Lemma decoderError_final : decoderError errWriteFinalBlock.
Proof. right. right. right. reflexivity. Qed.

(** One turn of the decoder on whole blocks, on any writer: no panic,
    and the mode handed on is the one [CryptBlocks] left. *)
Lemma processDecryptionBlock_outcome (mode : BlockMode) (chunk : list byte)
    (isLastBlock : bool) (prev : list byte) (s : World) :
  modeOK mode -> len chunk mod aes_BlockSize = 0 ->
  outcomeIn decoderError (fun _ => False)
    (fst (processDecryptionBlock mode chunk (len chunk) isLastBlock prev s)) /\
  forall next mode' s2,
    processDecryptionBlock mode chunk (len chunk) isLastBlock prev s =
      (Ok (next, mode'), s2) ->
    mode' = snd (chain mode chunk).
Proof.
  intros Hm Ha. destruct s as [r [o [k |]] g].
  - rewrite processDecryptionBlock_budget by assumption. cbv zeta.
    destruct (len prev >? 0); destruct isLastBlock;
      destruct k as [|[|k]]; cbn [fst outcomeIn];
      (split; [first [exact I | apply decoderError_block
                     | apply decoderError_final]
              | intros next mode' s2 E; try discriminate E;
                injection E as _ <- _; reflexivity]).
  - rewrite processDecryptionBlock_healthy by assumption.
    split; [exact I |].
    intros next mode' s2 E. injection E as _ <- _. reflexivity.
Qed.

Lemma handleEndOfFile_outcome (prev : list byte) (s : World) :
  outcomeIn decoderError (fun _ => False) (fst (handleEndOfFile prev s)).
Proof.
  destruct s as [r [o [k |]] g].
  - rewrite handleEndOfFile_budget.
    destruct (len prev >? 0); [| exact I].
    destruct k; [apply decoderError_final | exact I].
  - rewrite handleEndOfFile_healthy. exact I.
Qed.

Lemma DecryptStream_loop_outcome (fuel : nat) :
  forall (mode : BlockMode) (prev : list byte) (s : World),
  (length (r_data (src s)) < fuel)%nat -> modeOK mode ->
  outcomeIn decoderError
    (fun p => p = InputNotFullBlocks /\
              len (r_data (src s)) mod aes_BlockSize <> 0)
    (fst (DecryptStream_loop fuel mode prev s)).
Proof.
  induction fuel as [|fuel IH]; intros mode prev s Hfuel Hm; [lia |].
  cbn [DecryptStream_loop].
  apply bind_outcomeIn;
    [unfold readFull; destruct (ReadFull _ _); exact I
    | intros [buf err] s1 Hread].
  destruct (Z.eqb_spec (len buf) 0) as [E0 | E0].
  { eapply outcomeIn_weaken; [| | apply handleEndOfFile_outcome];
      [auto | intros p []]. }
  destruct (readFull_cases _ _ _ _ _ (Z.lt_le_incl _ _ bufferSize_pos) Hread)
    as (_ & [(-> & Hlen & Hsz) | (_ & Hbuf & Hlen)]).
  - assert (Ha : len buf mod aes_BlockSize = 0)
      by (rewrite Hlen; apply bufferSize_aligned).
    replace (len buf <? bufferSize) with false
      by (symmetry; rewrite Hlen; apply Z.ltb_irrefl).
    cbn [isEOFish orb negb].
    destruct (processDecryptionBlock_outcome mode buf false prev s1 Hm Ha)
      as [Hout Hmode].
    apply bind_outcomeIn.
    + eapply outcomeIn_weaken; [| | exact Hout]; [auto | intros p []].
    + intros [next mode'] s2 E2.
      apply bind_outcomeIn; [exact I | intros [] s3 E3].
      injection E3 as <-.
      pose proof (Hmode next mode' s2 E2) as ->.
      pose proof (processDecryptionBlock_src mode buf (len buf) false prev s1)
        as Hs2.
      rewrite E2 in Hs2. cbn [snd] in Hs2.
      destruct (chain_len mode buf Hm Ha) as [_ Hm'].
      eapply outcomeIn_weaken; [| | apply IH; [| exact Hm']].
      * auto.
      * intros p [-> Hp]. split; [reflexivity |].
        rewrite Hs2, Hsz in Hp. intros Hd. apply Hp.
        rewrite <- Hlen.
        clear - Hd Ha. unfold aes_BlockSize in *.
        rewrite Zminus_mod, Hd, Ha. reflexivity.
      * rewrite Hs2. pose proof bufferSize_pos.
        clear IH Hread E2 Hout Hmode. buf_lia.
  - apply Z.ltb_lt in Hlen. rewrite Hlen. cbn [orb].
    destruct (Z.eq_dec (len buf mod aes_BlockSize) 0) as [Ha | Ha].
    + destruct (processDecryptionBlock_outcome mode buf true prev s1 Hm Ha)
        as [Hout _].
      apply bind_outcomeIn;
        [| intros [next mode'] s2 _; exact I].
      eapply outcomeIn_weaken; [| | exact Hout]; [auto | intros p []].
    + unfold processDecryptionBlock.
      unfold bind at 1. unfold bind at 1. rewrite slice_all.
      cbn [lift ofOption].
      unfold bind at 1. rewrite CryptBlocks_unaligned by exact Ha.
      cbn [lift fst outcomeIn]. split; [reflexivity |].
      rewrite <- Hbuf. exact Ha.
Qed.

(** X15.  Every way [DecryptStream] can end, for any reader and writer:
    it returns nil or one of four errors, "failed to read header",
    "invalid file format", "failed to write decrypted block" or
    "failed to write final block", or it panics in [CryptBlocks], and
    that only on an input whose length is not a multiple of 16.  It
    does not return a padding error, a cipher-setup error or a read
    error from its loop. *)
Theorem DecryptStream_outcomes (password : list byte) (s : World) :
  outcomeIn decoderError
    (fun p => p = InputNotFullBlocks /\
              len (r_data (src s)) mod aes_BlockSize <> 0)
    (fst (DecryptStream password s)).
Proof.
  destruct s as [[data e] w g]. cbn [src r_data].
  destruct (Z.lt_ge_cases (len data) headerSize) as [Hshort | Hlong].
  - unfold DecryptStream. unfold bind at 1.
    rewrite readAndValidateHeader_short by exact Hshort.
    left. eauto.
  - destruct (split_at 16 data) as (header & body & -> & Hh);
      [pose proof (len_nonneg data); unfold headerSize in Hlong; lia |].
    destruct (split_at 8 header) as (m & salt & -> & Hm); [lia |].
    assert (Hs : len salt = saltSize)
      by (rewrite len_app in Hh; unfold saltSize; lia).
    destruct (list_eq_dec Byte.byte_eq_dec m magicBytes) as [-> | Hne].
    + rewrite <- app_assoc.
      rewrite DecryptStream_valid_header by exact Hs.
      eapply outcomeIn_weaken;
        [| | apply DecryptStream_loop_outcome;
             [cbn [src r_data]; lia | apply sessionMode_ok]].
      * auto.
      * cbn [src r_data]. intros p [-> Hp]. split; [reflexivity |].
        intros Hd. apply Hp.
        rewrite app_assoc, aligned_app_inv in Hd; [exact Hd |].
        rewrite Hh. reflexivity.
    + unfold DecryptStream. unfold bind at 1.
      rewrite readAndValidateHeader_mismatch by assumption.
      right. left. reflexivity.
Qed.

End Outcomes.

(** ** The theorems at the small instance *)

Lemma toy_laws : CryptoLaws Toy.crypto.
Proof.
  constructor.
  - intros password salt iter keyLen h Hk. cbn [pbkdf2_Key Toy.crypto].
    unfold Toy.kdf, len.
    rewrite length_firstn, !length_app, repeat_length. lia.
  - intros key blk _ H. cbn [Encrypt Toy.crypto].
    unfold Toy.encrypt, Toy.mask, len in *.
    rewrite length_rev, length_map. exact H.
  - intros key blk _ H. cbn [Decrypt Toy.crypto].
    unfold Toy.decrypt, Toy.mask, len in *.
    rewrite length_map, length_rev. exact H.
  - intros key blk _ _. cbn [Encrypt Decrypt Toy.crypto].
    unfold Toy.encrypt, Toy.decrypt, Toy.mask.
    rewrite rev_involutive, map_map. rewrite <- (map_id blk) at 2.
    apply map_ext. intros b. apply byte_xor_cancel.
Qed.

Lemma round_trip_witness :
  saltSize <= len Toy.salt0 /\
  exists container : list byte,
    encryptBytes (C := Toy.crypto) Toy.password0 (list_byte_of_string "hello")
      (bytes_NewReader Toy.salt0) = (Ok tt, container) /\
    decryptBytes (C := Toy.crypto) Toy.password0 container =
      (Ok tt, list_byte_of_string "hello").
Proof.
  split; [cbv; discriminate |].
  apply (@round_trip Toy.crypto toy_laws). cbv; discriminate.
Defined.

Lemma padding_invariant_witness :
  saltSize <= len Toy.salt0 /\
  exists body : list byte,
    encryptBytes (C := Toy.crypto) Toy.password0 [] (bytes_NewReader Toy.salt0) =
      (Ok tt, magicBytes ++ firstn 8 Toy.salt0 ++ body) /\
    len (magicBytes ++ firstn 8 Toy.salt0) = headerSize /\
    len body = 16 * ((len (@nil byte) + 1 + 15) / 16) /\
    len body mod 16 = 0 /\ 0 < len body /\
    16 * (len (@nil byte) / 16) < len body.
Proof.
  split; [cbv; discriminate |].
  apply (@padding_invariant Toy.crypto toy_laws Toy.password0 []
           (bytes_NewReader Toy.salt0)).
  cbv; discriminate.
Defined.

Lemma DecryptStream_header_witness :
  DecryptStream (C := Toy.crypto) Toy.password0
    (mkWorld (bytes_NewReader (list_byte_of_string "Salted_")) bytes_Buffer
       (bytes_NewReader [])) =
  (Err (Wrap "failed to read header: %w" (IOErr ErrUnexpectedEOF)),
   mkWorld (bytes_NewReader []) bytes_Buffer (bytes_NewReader [])).
Proof.
  exact (proj1 (@DecryptStream_header Toy.crypto toy_laws Toy.password0
                  (list_byte_of_string "Salted_") EOF bytes_Buffer
                  (bytes_NewReader []))).
Defined.

Lemma deriveKeyAndIV_spec_witness :
  deriveKeyAndIV (C := Toy.crypto) Toy.password0 Toy.salt0 =
  Ok (firstn 32 (Toy.kdf Toy.password0 Toy.salt0 10000 48 sha256_New),
      firstn 16 (skipn 32 (Toy.kdf Toy.password0 Toy.salt0 10000 48 sha256_New))).
Proof.
  exact (proj1 (@deriveKeyAndIV_spec Toy.crypto toy_laws Toy.password0 Toy.salt0)).
Defined.

Lemma DecryptStream_empty_body_witness :
  len Toy.salt0 = saltSize /\
  DecryptStream (C := Toy.crypto) Toy.password0
    (mkWorld (bytes_NewReader (magicBytes ++ Toy.salt0)) bytes_Buffer
       (bytes_NewReader [])) =
  (Ok tt, mkWorld (bytes_NewReader []) bytes_Buffer (bytes_NewReader [])).
Proof.
  split; [reflexivity |].
  apply (@DecryptStream_empty_body Toy.crypto toy_laws). reflexivity.
Defined.

Lemma wrong_password_witness :
  saltSize <= len Toy.salt0 /\
  exists container garbage : list byte,
    encryptBytes (C := Toy.crypto) Toy.password0 (list_byte_of_string "hello")
      (bytes_NewReader Toy.salt0) = (Ok tt, container) /\
    len garbage = len container - headerSize /\
    decryptBytes (C := Toy.crypto) (list_byte_of_string "guess") container =
      (Ok tt, stripped garbage) /\
    (stripped garbage = garbage \/
     exists p : Z, 1 <= p <= 16 /\ p <= len garbage /\
       stripped garbage = firstn (Z.to_nat (len garbage - p)) garbage).
Proof.
  split; [cbv; discriminate |].
  apply (@wrong_password Toy.crypto toy_laws). cbv; discriminate.
Defined.


Lemma read_error_returns_nil_witness :
  saltSize <= len Toy.salt0 /\ len Toy.salt0 = saltSize /\
  len (list_byte_of_string "0123456789abcdef") mod aes_BlockSize = 0 /\
  fst (EncryptStream (C := Toy.crypto) Toy.password0
         (mkWorld (mkReader (list_byte_of_string "abc") (ErrDevice "input/output error"))
            bytes_Buffer (bytes_NewReader Toy.salt0))) = Ok tt /\
  fst (DecryptStream (C := Toy.crypto) Toy.password0
         (mkWorld (mkReader (magicBytes ++ Toy.salt0
                               ++ list_byte_of_string "0123456789abcdef")
                     (ErrDevice "input/output error"))
            bytes_Buffer (bytes_NewReader []))) = Ok tt.
Proof.
  split; [cbv; discriminate |]. split; [reflexivity |]. split; [reflexivity |].
  apply (@read_error_returns_nil Toy.crypto toy_laws);
    [cbv; discriminate | reflexivity | reflexivity].
Defined.

(** ** The codec run on the block-boundary lengths *)

Example run_len_0 : runBoth (sample 0) = (Ok tt, 16, Ok tt, sample 0).
Proof. vm_compute. reflexivity. Qed.

Example run_len_1 : runBoth (sample 1) = (Ok tt, 16, Ok tt, sample 1).
Proof. vm_compute. reflexivity. Qed.

Example run_len_15 : runBoth (sample 15) = (Ok tt, 16, Ok tt, sample 15).
Proof. vm_compute. reflexivity. Qed.

Example run_len_16 : runBoth (sample 16) = (Ok tt, 32, Ok tt, sample 16).
Proof. vm_compute. reflexivity. Qed.

Example run_len_17 : runBoth (sample 17) = (Ok tt, 32, Ok tt, sample 17).
Proof. vm_compute. reflexivity. Qed.

(** A reader that fails after three bytes: [EncryptStream] returns nil
    and the container holds the header and one block. *)
Example run_failing_reader :
  let '(r, s) :=
    EncryptStream (C := Toy.crypto) Toy.password0
      (mkWorld (mkReader (sample 3) (ErrDevice "input/output error"))
         bytes_Buffer (bytes_NewReader Toy.salt0)) in
  (r, len (w_out (dst s))) = (Ok tt, 32).
Proof. vm_compute. reflexivity. Qed.

(** A writer that fails at once: the header write error comes back. *)
Example run_failing_writer :
  fst (EncryptStream (C := Toy.crypto) Toy.password0
         (mkWorld (bytes_NewReader (sample 3)) (mkWriter [] (Some O))
            (bytes_NewReader Toy.salt0))) =
  Err (Wrap "error writing header to file: %w" (IOErr ErrClosedPipe)).
Proof. vm_compute. reflexivity. Qed.

(** ** The further theorems at the small instance *)

Lemma EncryptStream_container_witness :
  len Toy.salt0 = saltSize /\
  exists (body : list byte) (cbc' : BlockMode),
    CryptBlocks (C := Toy.crypto)
      (sessionMode (C := Toy.crypto) Encrypter Toy.password0 Toy.salt0)
      (applyPKCS7Padding (sample 17)) = Ok (body, cbc') /\
    EncryptStream (C := Toy.crypto) Toy.password0
      (mkWorld (mkReader (sample 17) EOF) (mkWriter [] None)
         (mkReader (Toy.salt0 ++ []) EOF)) =
    (Ok tt,
     mkWorld (mkReader [] EOF)
       (mkWriter ([] ++ magicBytes ++ Toy.salt0 ++ body) None) (mkReader [] EOF)).
Proof.
  split; [reflexivity |].
  apply (@EncryptStream_container Toy.crypto toy_laws). reflexivity.
Defined.

Lemma DecryptStream_lenient_witness :
  len Toy.salt0 = saltSize /\ len (sample 32) mod aes_BlockSize = 0 /\
  exists (plain tail : list byte) (mode' : BlockMode),
    CryptBlocks (C := Toy.crypto)
      (sessionMode (C := Toy.crypto) Decrypter Toy.password0 Toy.salt0)
      (sample 32) = Ok (plain, mode') /\
    len plain = len (sample 32) /\
    plain = stripped plain ++ tail /\ len tail <= 16 /\
    DecryptStream (C := Toy.crypto) Toy.password0
      (mkWorld (mkReader (magicBytes ++ Toy.salt0 ++ sample 32) EOF)
         (mkWriter [] None) (bytes_NewReader [])) =
    (Ok tt,
     mkWorld (mkReader [] EOF) (mkWriter ([] ++ stripped plain) None)
       (bytes_NewReader [])).
Proof.
  split; [reflexivity |]. split; [reflexivity |].
  apply (@DecryptStream_lenient Toy.crypto toy_laws); reflexivity.
Defined.

Lemma truncated_source_round_trip_witness :
  saltSize <= len (r_data (bytes_NewReader Toy.salt0)) /\
  exists container : list byte,
    outcome (EncryptStream (C := Toy.crypto) Toy.password0
               (mkWorld (mkReader (sample 3) (ErrDevice "input/output error"))
                  bytes_Buffer (bytes_NewReader Toy.salt0))) =
      (Ok tt, container) /\
    decryptBytes (C := Toy.crypto) Toy.password0 container = (Ok tt, sample 3).
Proof.
  split; [cbv; discriminate |].
  apply (@truncated_source_round_trip Toy.crypto toy_laws). cbv; discriminate.
Defined.

Lemma EncryptStream_salt_failure_witness :
  len (r_data (bytes_NewReader (sample 5))) < saltSize /\
  EncryptStream (C := Toy.crypto) Toy.password0
    (mkWorld (bytes_NewReader (sample 3)) bytes_Buffer (bytes_NewReader (sample 5))) =
  (Err (Wrap "error generating salt: %w" (IOErr ErrUnexpectedEOF)),
   mkWorld (bytes_NewReader (sample 3)) bytes_Buffer (mkReader [] EOF)).
Proof.
  split; [reflexivity |].
  apply (@EncryptStream_salt_failure Toy.crypto). reflexivity.
Defined.

Lemma setupEncryption_never_fails_witness :
  exists key iv : list byte,
    deriveKeyAndIV (C := Toy.crypto) Toy.password0 Toy.salt0 = Ok (key, iv) /\
    len key = 32 /\ len iv = 16 /\
    aes_NewCipher key = inr (mkBlock key) /\
    NewCBCEncrypter (mkBlock key) iv =
      Ok (mkBlockMode (mkBlock key) Encrypter iv) /\
    setupEncryption (C := Toy.crypto) Toy.password0 Toy.salt0
      (mkWorld (bytes_NewReader []) bytes_Buffer (bytes_NewReader [])) =
    (Ok (mkBlockMode (mkBlock key) Encrypter iv),
     mkWorld (bytes_NewReader []) bytes_Buffer (bytes_NewReader [])).
Proof.
  apply (@setupEncryption_never_fails Toy.crypto toy_laws).
Defined.

Lemma EncryptStream_write_budget_witness :
  len Toy.salt0 = saltSize /\
  fst (outcome (EncryptStream (C := Toy.crypto) Toy.password0
                  (mkWorld (mkReader (sample 3) EOF) (mkWriter [] (Some 2%nat))
                     (mkReader (Toy.salt0 ++ []) EOF)))) =
  Err errWriteEncryptedBlock.
Proof.
  split; [reflexivity |].
  rewrite (@EncryptStream_write_budget Toy.crypto toy_laws) by reflexivity.
  reflexivity.
Defined.

Lemma DecryptStream_write_budget_witness :
  len Toy.salt0 = saltSize /\ len (sample 16) mod aes_BlockSize = 0 /\
  fst (DecryptStream (C := Toy.crypto) Toy.password0
         (mkWorld (mkReader (magicBytes ++ Toy.salt0 ++ sample 16) EOF)
            (mkWriter [] (Some 0%nat)) (bytes_NewReader []))) =
  Err errWriteFinalBlock.
Proof.
  split; [reflexivity |]. split; [reflexivity |].
  rewrite (@DecryptStream_write_budget Toy.crypto toy_laws) by reflexivity.
  reflexivity.
Defined.

Lemma applyPKCS7Padding_injective_witness :
  applyPKCS7Padding (sample 3) = applyPKCS7Padding (sample 3) /\
  sample 3 = sample 3.
Proof.
  split; [reflexivity |].
  apply applyPKCS7Padding_injective. reflexivity.
Defined.


Lemma DecryptStream_short_truncated_body_witness :
  len Toy.salt0 = saltSize /\ len (sample 5) mod aes_BlockSize <> 0 /\
  len (sample 5) < bufferSize /\
  DecryptStream (C := Toy.crypto) Toy.password0
    (mkWorld (mkReader (magicBytes ++ Toy.salt0 ++ sample 5) EOF)
       (mkWriter [] (Some 0%nat)) (bytes_NewReader [])) =
  (Panic InputNotFullBlocks,
   mkWorld (mkReader [] EOF) (mkWriter [] (Some 0%nat)) (bytes_NewReader [])).
Proof.
  split; [reflexivity |]. split; [cbv; discriminate |]. split; [reflexivity |].
  apply (@DecryptStream_short_truncated_body Toy.crypto toy_laws);
    [reflexivity | cbv; discriminate | reflexivity].
Defined.

Lemma EncryptStream_outcomes_witness :
  outcomeIn encoderError (fun _ => False)
    (fst (EncryptStream (C := Toy.crypto) Toy.password0
            (mkWorld (bytes_NewReader (sample 3)) (mkWriter [] (Some 1%nat))
               (bytes_NewReader Toy.salt0)))).
Proof.
  apply (@EncryptStream_outcomes Toy.crypto toy_laws).
Defined.

Lemma DecryptStream_outcomes_witness :
  outcomeIn decoderError
    (fun p => p = InputNotFullBlocks /\
              len (magicBytes ++ Toy.salt0 ++ sample 5) mod aes_BlockSize <> 0)
    (fst (DecryptStream (C := Toy.crypto) Toy.password0
            (mkWorld (bytes_NewReader (magicBytes ++ Toy.salt0 ++ sample 5))
               bytes_Buffer (bytes_NewReader [])))).
Proof.
  apply (@DecryptStream_outcomes Toy.crypto toy_laws Toy.password0
           (mkWorld (bytes_NewReader (magicBytes ++ Toy.salt0 ++ sample 5))
              bytes_Buffer (bytes_NewReader []))).
Defined.

(** ** A truncated body that does not panic

    The panic on a body that is not whole blocks is not what every
    writer sees.  Here the header is valid, the body has two full
    buffers and five bytes, so its length is not a multiple of 16, and
    the writer refuses its first write: the call returns "failed to
    write decrypted block" and does not panic. *)


